(** * verilog_ast.c: the Verilog AST factory, embedded and checked

    A shallow embedding of the parts of [src/verilog_ast.c] that the
    specification's testable properties talk about.

    Conventions of the embedding.
    - A C pointer is a [pointer]: [NULL] or the address of a live object.
    - A structure obtained from [ast_calloc] starts with every field zero
      (null pointer, [AST_FALSE], first enumerator); a constructor is the
      sequence of its field assignments on that zeroed structure.
    - A function that can stop at an [assert], dereference a null or
      dangling pointer, or loop, returns a [result].
    - Functions that update an object in place take the object (or the heap
      that holds it) and return the updated one.
    - The structures are declared in [verilog_ast.h]; each record here lists
      the members that [verilog_ast.c] assigns, under their C names. *)

From stdpp Require Import gmap list fin_maps.

Set Default Proof Using "Type".

(** ** Pointers and outcomes *)

Abbreviation addr := positive.
Abbreviation pointer := (option addr).
Abbreviation NULL := (@None addr).

Inductive result (A : Type) : Type :=
| Ok (a : A)            (* the call returns *)
| AssertionFailed        (* an [assert] aborts the process *)
| Fault                  (* null or dangling dereference, invalid free *)
| OutOfFuel.             (* the loop bound of the model was too small *)
Arguments Ok {A} a.
Arguments AssertionFailed {A}.
Arguments Fault {A}.
Arguments OutOfFuel {A}.

(** Sequencing: the first outcome that is not a return ends the run.
    With these instances [x ← r; k] is written as in the C source, one
    statement after the other. *)
#[export] Instance result_bind : MBind result := λ A B k r,
  match r with
  | Ok a => k a
  | AssertionFailed => AssertionFailed
  | Fault => Fault
  | OutOfFuel => OutOfFuel
  end.
#[export] Instance result_ret : MRet result := λ A a, Ok a.

(** [assert(c)] *)
Definition assert (c : bool) : result unit :=
  if c then Ok tt else AssertionFailed.

(** Reading through a pointer into the objects of one structure type:
    [p -> field] faults when [p] is null or dangling. *)
Definition deref {A} (h : gmap addr A) (p : pointer) : result A :=
  match p with
  | Some a => match h !! a with Some v => Ok v | None => Fault end
  | None => Fault
  end.

(** Modelled from the spec: [ast_boolean] is declared in a header that is
    not among the sources.  A flag is a boolean, and the all-zero value that
    [calloc] leaves in a flag is [AST_FALSE]. *)
Abbreviation ast_boolean := bool.
Abbreviation AST_TRUE := true.
Abbreviation AST_FALSE := false.

(** ** Memory management: [ast_calloc] and [ast_free_all] *)

Module Arena.

(** [struct ast_alloc_t] *)
Record ast_alloc := mk_alloc { next : pointer; data : pointer }.

(** What lives at an address of the C heap: a cell of the allocation list,
    or a zero-filled block of [num] elements of [size] bytes. *)
Inductive block :=
| Cell (c : ast_alloc)
| Data (num size : N).

(** The C heap together with the two file-scope variables [head] and
    [walker]. *)
Record state := mk_state {
  heap : gmap addr block;
  head : pointer;
  walker : pointer
}.

(** Program start: nothing allocated, [head = NULL], [walker = NULL]. *)
Definition init : state := mk_state ∅ NULL NULL.

(** libc [calloc]: a block at an address that is not in use.  Allocation
    never fails in this model. *)
Definition calloc (b : block) (h : gmap addr block) : addr * gmap addr block :=
  let a := fresh (dom h) in (a, <[a := b]> h).

(** libc [free]: [free(NULL)] does nothing; the address must be live. *)
Definition free (p : pointer) (h : gmap addr block) : result (gmap addr block) :=
  match p with
  | None => Ok h
  | Some a => if decide (is_Some (h !! a)) then Ok (delete a h) else Fault
  end.

(** Reading a cell of the allocation list through a pointer. *)
Definition load (h : gmap addr block) (p : pointer) : result ast_alloc :=
  match p with
  | Some a => match h !! a with Some (Cell c) => Ok c | _ => Fault end
  | None => Fault
  end.

(** [p -> next = v] *)
Definition store_next (h : gmap addr block) (p : pointer) (v : pointer)
  : result (gmap addr block) :=
  c ← load h p;
  match p with
  | Some a => Ok (<[a := Cell (mk_alloc v (data c))]> h)
  | None => Fault
  end.

(** [p -> data = v] *)
Definition store_data (h : gmap addr block) (p : pointer) (v : pointer)
  : result (gmap addr block) :=
  c ← load h p;
  match p with
  | Some a => Ok (<[a := Cell (mk_alloc (next c) v)]> h)
  | None => Fault
  end.

(** [void * ast_calloc(size_t num, size_t size)] *)
Definition ast_calloc (num size : N) (st : state) : result (pointer * state) :=
  st1 ←
    match head st with
    | None =>
        (* head = calloc(1,sizeof(ast_alloc)); walker = head; *)
        let '(c, h1) := calloc (Cell (mk_alloc NULL NULL)) (heap st) in
        Ok (mk_state h1 (Some c) (Some c))
    | Some _ =>
        (* walker -> next = calloc(1,sizeof(ast_alloc));
           walker = walker -> next; *)
        let '(c, h1) := calloc (Cell (mk_alloc NULL NULL)) (heap st) in
        h2 ← store_next h1 (walker st) (Some c);
        w ← load h2 (walker st);
        Ok (mk_state h2 (head st) (next w))
    end;
  (* walker -> data = calloc(num,size); return walker -> data; *)
  let '(d, h3) := calloc (Data num size) (heap st1) in
  h4 ← store_data h3 (walker st1) (Some d);
  w ← load h4 (walker st1);
  Ok (data w, mk_state h4 (head st1) (walker st1)).

(** The [while(head -> next != NULL)] loop of [ast_free_all]; [fuel] bounds
    the number of times the body runs. *)
Fixpoint free_loop (fuel : nat) (st : state) : result state :=
  hd ← load (heap st) (head st);
  match next hd with
  | None => Ok st
  | Some _ =>
      match fuel with
      | O => OutOfFuel
      | S fuel' =>
          (* walker = head; head = head -> next;
             free(walker -> data); free(walker); *)
          let walker' := head st in
          let head' := next hd in
          w ← load (heap st) walker';
          h1 ← free (data w) (heap st);
          h2 ← free walker' h1;
          free_loop fuel' (mk_state h2 head' walker')
      end
  end.

(** [void ast_free_all()] *)
Definition ast_free_all (fuel : nat) (st : state) : result state :=
  match head st with
  | None => Ok st              (* No memory was allocated in the first place. *)
  | Some _ =>
      st1 ← free_loop fuel st;
      (* walker = NULL; head = NULL; *)
      Ok (mk_state (heap st1) NULL NULL)
  end.

(** A session: the requests [(num, size)] served in order by [ast_calloc];
    the result lists the returned blocks, oldest first. *)
Fixpoint session (reqs : list (N * N)) (st : state)
  : result (list pointer * state) :=
  match reqs with
  | [] => Ok ([], st)
  | (num, size) :: reqs' =>
      '(p, st1) ← ast_calloc num size st;
      '(ps, st2) ← session reqs' st1;
      Ok (p :: ps, st2)
  end.

(** A block is live as long as [free] has not been called on it. *)
Definition live (p : pointer) (st : state) : Prop :=
  match p with
  | Some a => is_Some (heap st !! a)
  | None => False
  end.

Definition is_data (h : gmap addr block) (d : addr) : Prop :=
  ∃ num size, h !! d = Some (Data num size).

(** The allocation list between [p] and [q]: its cells in order, each
    paired with the block it registers. *)
Fixpoint alloc_seg (h : gmap addr block) (p q : pointer)
    (l : list (addr * addr)) : Prop :=
  match l with
  | [] => p = q
  | cd :: l' =>
      p = Some cd.1
      ∧ ∃ nx, h !! cd.1 = Some (Cell (mk_alloc nx (Some cd.2)))
              ∧ is_data h cd.2
              ∧ alloc_seg h nx q l'
  end.

(** Every address of a list of cell/block pairs. *)
Fixpoint addrs (l : list (addr * addr)) : list addr :=
  match l with
  | [] => []
  | cd :: l' => cd.1 :: cd.2 :: addrs l'
  end.

(** The state between two calls: [head] leads through the cells of [l] to
    null, all cells and blocks are distinct, and [walker] is the last
    cell. *)
Record registered (st : state) (l : list (addr * addr)) : Prop := {
  reg_list : alloc_seg (heap st) (head st) NULL l;
  reg_nodup : NoDup (addrs l);
  reg_walker : walker st = fst <$> last l
}.

(** The heap after [free] on every cell and block of [l]. *)
Definition release (l : list (addr * addr)) (h : gmap addr block)
  : gmap addr block :=
  foldl (λ h cd, delete cd.1 (delete cd.2 h)) h l.

End Arena.

(** ** The list container *)

Module AstList.

(** Modelled from the spec: the list container ([ast_list] and the
    [ast_list_*] functions) is declared and defined in files that are not
    among the sources.  The spec gives its contract: an insertion-ordered
    sequence of opaque element references, with append at the tail,
    insertion at the head, concatenation of a second sequence after the tail
    of the first, indexed lookup that is absent outside
    [0 <= index < length], and its length (the [items] counter).  It never
    reorders or deduplicates. *)
Abbreviation ast_list := (list pointer).

(** Modelled from the spec: [new() -> empty sequence]. *)
Definition ast_list_new : ast_list := [].

(** Modelled from the spec: [append(seq, item)] adds at the tail. *)
Definition ast_list_append (l : ast_list) (item : pointer) : ast_list :=
  l ++ [item].

(** Modelled from the spec: [prepend(seq, item)] adds at the head. *)
Definition ast_list_preappend (l : ast_list) (item : pointer) : ast_list :=
  item :: l.

(** Modelled from the spec: [concat(dst, src)] appends all of [src] after
    the tail of [dst]. *)
Definition ast_list_concat (dst src : ast_list) : ast_list := dst ++ src.

(** Modelled from the spec: [get(seq, index) -> item or absent]. *)
Definition ast_list_get (l : ast_list) (index : nat) : pointer :=
  match l !! index with
  | Some item => item
  | None => NULL
  end.

(** Modelled from the spec: [length(seq)], the [items] member. *)
Definition items (l : ast_list) : nat := length l.

End AstList.
Import AstList.

(** An [ast_list *] is null or points to a list; the list it points to
    stands for the pointer. *)
Abbreviation list_pointer := (option ast_list).

(** ** Attributes *)

Module Attributes.

(** [struct ast_node_attributes_t], as [verilog_ast.c] uses it. *)
Record ast_node_attributes := mk_attr {
  attr_name : pointer;
  attr_value : pointer;
  next : pointer
}.

(** [ast_new_attributes]: [next] stays as [ast_calloc] left it. *)
Definition ast_new_attributes (name value : pointer) : ast_node_attributes :=
  mk_attr name value NULL.

(** The [while(walker -> next != NULL) walker = walker -> next;] loop of
    [ast_append_attribute]; the result is the final [walker]. *)
Fixpoint append_loop (fuel : nat) (h : gmap addr ast_node_attributes)
    (walker : pointer) : result pointer :=
  w ← deref h walker;
  match next w with
  | None => Ok walker
  | Some _ =>
      match fuel with
      | O => OutOfFuel
      | S fuel' => append_loop fuel' h (next w)
      end
  end.

(** [p -> next = v] *)
Definition store_next (h : gmap addr ast_node_attributes) (p v : pointer)
  : result (gmap addr ast_node_attributes) :=
  c ← deref h p;
  match p with
  | Some a => Ok (<[a := mk_attr (attr_name c) (attr_value c) v]> h)
  | None => Fault
  end.

(** [void ast_append_attribute(ast_node_attributes * parent,
                               ast_node_attributes * toadd)] *)
Definition ast_append_attribute (fuel : nat)
    (h : gmap addr ast_node_attributes) (parent toadd : pointer)
  : result (gmap addr ast_node_attributes) :=
  p ← deref h parent;
  (* ast_node_attributes * walker = parent -> next; *)
  let walker := next p in
  walker ← append_loop fuel h walker;
  (* walker -> next = toadd; *)
  store_next h walker toadd.

(** The attributes reached from [p] by following [next], in order, the last
    one being the one whose [next] is null. *)
Fixpoint chain (h : gmap addr ast_node_attributes) (p : pointer)
    (l : list addr) : Prop :=
  match l with
  | [] => p = NULL
  | a :: l' => p = Some a ∧ ∃ c, h !! a = Some c ∧ chain h (next c) l'
  end.

End Attributes.

(** ** Lvalues *)

Module Lvalue.

(** Modelled from the spec: [ast_lvalue_type] is declared in a header that
    is not among the sources.  The identifier-form tags (net, variable, genvar
    identifier) and the concatenation-form tags (net, variable
    concatenation) are the ones [verilog_ast.c] names; [LVALUE_OTHER]
    stands for any further enumerator of the declaration. *)
Inductive ast_lvalue_type :=
| NET_IDENTIFIER
| VAR_IDENTIFIER
| GENVAR_IDENTIFIER
| NET_CONCATENATION
| VAR_CONCATENATION
| LVALUE_OTHER (tag : N).

#[export] Instance ast_lvalue_type_eq_dec : EqDecision ast_lvalue_type.
Proof. solve_decision. Defined.

(** The union [data] of [ast_lvalue]: the member that was written. *)
Inductive ast_lvalue_data :=
| identifier (id : pointer)
| concatenation (concat : pointer).

Record ast_lvalue := mk_lvalue {
  type : ast_lvalue_type;
  data : ast_lvalue_data
}.

(** [ast_lvalue * ast_new_lvalue_id(ast_lvalue_type type, ast_identifier id)] *)
Definition ast_new_lvalue_id (type : ast_lvalue_type) (id : pointer)
  : result ast_lvalue :=
  _ ← assert (bool_decide (type = NET_IDENTIFIER)
              || bool_decide (type = VAR_IDENTIFIER)
              || bool_decide (type = GENVAR_IDENTIFIER));
  Ok (mk_lvalue type (identifier id)).

(** [ast_lvalue * ast_new_lvalue_concat(ast_lvalue_type type,
                                        ast_concatenation * concat)] *)
Definition ast_new_lvalue_concat (type : ast_lvalue_type) (concat : pointer)
  : result ast_lvalue :=
  _ ← assert (bool_decide (type = NET_CONCATENATION)
              || bool_decide (type = VAR_CONCATENATION));
  Ok (mk_lvalue type (concatenation concat)).

(** The two tag families of the data model. *)
Definition identifier_form (t : ast_lvalue_type) : Prop :=
  t = NET_IDENTIFIER ∨ t = VAR_IDENTIFIER ∨ t = GENVAR_IDENTIFIER.
Definition concatenation_form (t : ast_lvalue_type) : Prop :=
  t = NET_CONCATENATION ∨ t = VAR_CONCATENATION.

#[export] Instance identifier_form_dec t : Decision (identifier_form t).
Proof. unfold identifier_form. apply _. Defined.
#[export] Instance concatenation_form_dec t : Decision (concatenation_form t).
Proof. unfold concatenation_form. apply _. Defined.

(** A node is well paired when its tag family is that of its payload. *)
Definition well_paired (lv : ast_lvalue) : Prop :=
  match data lv with
  | identifier _ => identifier_form (type lv)
  | concatenation _ => concatenation_form (type lv)
  end.

End Lvalue.

(** ** Primaries and expressions *)

Module Expression.

(** Modelled from the spec: [ast_primary_type] is declared in a header that
    is not among the sources.  A primary is a constant primary, a general
    primary or a module-path primary; the names are those
    [verilog_ast.c] assigns. *)
Inductive ast_primary_type :=
| CONSTANT_PRIMARY
| PRIMARY
| MODULE_PATH_PRIMARY.

#[export] Instance ast_primary_type_eq_dec : EqDecision ast_primary_type.
Proof. solve_decision. Defined.

(** Modelled from the spec: [ast_primary_value_type] and [ast_operator]
    are large enumerations declared in a header that is not among the
    sources; a value of either is the integer of its enumerator, as in C. *)
Definition ast_primary_value_type := Z.
Definition ast_operator := Z.

(** [ast_primary]: the tag pair the primary constructors write. *)
Record ast_primary := mk_primary {
  primary_type : ast_primary_type;
  value_type : ast_primary_value_type
}.

Definition ast_new_constant_primary (type : ast_primary_value_type)
  : ast_primary := mk_primary CONSTANT_PRIMARY type.
Definition ast_new_primary (type : ast_primary_value_type)
  : ast_primary := mk_primary PRIMARY type.
Definition ast_new_module_path_primary (type : ast_primary_value_type)
  : ast_primary := mk_primary MODULE_PATH_PRIMARY type.

(** Modelled from the spec: [ast_expression_type] is declared in a header
    that is not among the sources.  The kinds are primary wrapper, unary,
    binary, range (up/down or index), min:typ:max, conditional and string;
    the names are those [verilog_ast.c] assigns. *)
Inductive ast_expression_type :=
| PRIMARY_EXPRESSION
| UNARY_EXPRESSION
| BINARY_EXPRESSION
| RANGE_EXPRESSION_UP_DOWN
| RANGE_EXPRESSION_INDEX
| MINTYPMAX_EXPRESSION
| CONDITIONAL_EXPRESSION
| STRING_EXPRESSION.

(** [ast_expression], with the members the constructors assign. *)
Record ast_expression := mk_expression {
  type : ast_expression_type;
  attributes : pointer;
  left : pointer;
  right : pointer;
  aux : pointer;
  primary : pointer;
  operation : ast_operator;
  constant : ast_boolean;
  string : pointer
}.

(** [ast_calloc(1, sizeof(ast_expression))]: every member zero.  Each
    constructor assigns [type], so the zero of that member is never read. *)
Definition calloc_expression : ast_expression :=
  mk_expression PRIMARY_EXPRESSION NULL NULL NULL NULL NULL 0%Z AST_FALSE NULL.

(** [ast_expression * ast_new_expression_primary(ast_primary * p)];
    [primaries] holds the primaries built so far. *)
Definition ast_new_expression_primary (primaries : gmap addr ast_primary)
    (p : pointer) : result ast_expression :=
  let tr := calloc_expression in
  pv ← deref primaries p;
  Ok {| attributes := NULL;
        right := NULL;
        left := NULL;
        aux := NULL;
        type := PRIMARY_EXPRESSION;
        primary := p;
        constant := if decide (primary_type pv = CONSTANT_PRIMARY)
                    then AST_TRUE else AST_FALSE;
        operation := operation tr;
        string := string tr |}.

(** [ast_new_unary_expression] *)
Definition ast_new_unary_expression (operand : pointer)
    (operation : ast_operator) (attr : pointer) (constant : ast_boolean)
  : ast_expression :=
  let tr := calloc_expression in
  {| operation := operation;
     attributes := attr;
     right := operand;
     left := NULL;
     aux := NULL;
     type := UNARY_EXPRESSION;
     constant := constant;
     primary := primary tr;
     string := string tr |}.

(** [ast_new_range_expression]: [constant] is not assigned. *)
Definition ast_new_range_expression (left right : pointer) : ast_expression :=
  let tr := calloc_expression in
  {| attributes := NULL;
     right := right;
     left := left;
     aux := NULL;
     type := RANGE_EXPRESSION_UP_DOWN;
     primary := primary tr;
     operation := operation tr;
     constant := constant tr;
     string := string tr |}.

(** [ast_new_index_expression]: [constant] is not assigned. *)
Definition ast_new_index_expression (left : pointer) : ast_expression :=
  let tr := calloc_expression in
  {| attributes := NULL;
     right := NULL;
     left := left;
     aux := NULL;
     type := RANGE_EXPRESSION_INDEX;
     primary := primary tr;
     operation := operation tr;
     constant := constant tr;
     string := string tr |}.

(** [ast_new_binary_expression] *)
Definition ast_new_binary_expression (left right : pointer)
    (operation : ast_operator) (attr : pointer) (constant : ast_boolean)
  : ast_expression :=
  let tr := calloc_expression in
  {| operation := operation;
     attributes := attr;
     right := right;
     left := left;
     aux := NULL;
     type := BINARY_EXPRESSION;
     constant := constant;
     primary := primary tr;
     string := string tr |}.

(** [ast_new_string_expression] *)
Definition ast_new_string_expression (string : pointer) : ast_expression :=
  let tr := calloc_expression in
  {| attributes := NULL;
     right := NULL;
     left := NULL;
     aux := NULL;
     type := STRING_EXPRESSION;
     constant := AST_TRUE;
     string := string;
     primary := primary tr;
     operation := operation tr |}.

End Expression.

(** ** Function calls *)

Module FunctionCall.

Record ast_function_call := mk_function_call {
  function : pointer;
  constant : ast_boolean;
  system : ast_boolean;
  arguments : list_pointer;
  attributes : pointer
}.

(** [ast_new_function_call]: a null [arguments] is replaced by a new empty
    list. *)
Definition ast_new_function_call (id : pointer) (constant system : ast_boolean)
    (attr : pointer) (arguments : list_pointer) : ast_function_call :=
  let tr := {| function := id;
               constant := constant;
               system := system;
               arguments := arguments;
               attributes := attr |} in
  match FunctionCall.arguments tr with
  | None => {| function := function tr;
               constant := FunctionCall.constant tr;
               system := FunctionCall.system tr;
               arguments := Some ast_list_new;
               attributes := attributes tr |}
  | Some _ => tr
  end.

End FunctionCall.

(** ** Concatenations *)

Module Concatenation.

(** Modelled from the spec: [ast_concatenation_type] is declared in a
    header that is not among the sources.  The five kinds are those listed
    in the documentation of [ast_new_concatenation]. *)
Inductive ast_concatenation_type :=
| CONCATENATION_EXPRESSION
| CONCATENATION_CONSTANT_EXPRESSION
| CONCATENATION_NET
| CONCATENATION_VARIABLE
| CONCATENATION_MODULE_PATH.

(** [ast_concatenation]; [items] is the list the member points to, which
    both constructors obtain from [ast_list_new]. *)
Record ast_concatenation := mk_concatenation {
  repeat : pointer;
  type : ast_concatenation_type;
  items : ast_list
}.

(** [ast_new_concatenation(type, repeat, first_value)] *)
Definition ast_new_concatenation (type : ast_concatenation_type)
    (repeat first_value : pointer) : ast_concatenation :=
  let tr := {| repeat := repeat; type := type; items := ast_list_new |} in
  (* ast_list_append(tr -> items, first_value); *)
  {| repeat := Concatenation.repeat tr;
     type := Concatenation.type tr;
     items := ast_list_append (items tr) first_value |}.


(** [ast_extend_concatenation(element, repeat, data)]: the list of
    [element] is updated in place; the argument [repeat] is not used. *)
Definition ast_extend_concatenation (element : ast_concatenation)
    (repeat data : pointer) : ast_concatenation :=
  (* ast_list_preappend(element -> items, data); *)
  {| repeat := Concatenation.repeat element;
     type := type element;
     items := ast_list_preappend (items element) data |}.

(** Extending with [xs], one call per item, in order. *)
Definition extend_all (c : ast_concatenation) (xs : list pointer)
  : ast_concatenation :=
  foldl (λ c x, ast_extend_concatenation c NULL x) c xs.

End Concatenation.

(** ** Case statements *)

Module CaseStatement.

(** [ast_case_item] *)
Record ast_case_item := mk_case_item {
  conditions : list_pointer;
  body : pointer;
  is_default : ast_boolean
}.

(** [ast_new_case_item(conditions, body)] *)
Definition ast_new_case_item (conditions : list_pointer) (body : pointer)
  : ast_case_item :=
  {| conditions := conditions; body := body; is_default := AST_FALSE |}.

(** Modelled from the spec: [ast_case_statement_type] is declared in a
    header that is not among the sources; the spec names the case-kind tag
    as case/casez/casex. *)
Inductive ast_case_statement_type := CASE | CASEZ | CASEX.

(** [ast_case_statement] *)
Record ast_case_statement := mk_case_statement {
  expression : pointer;
  cases : list_pointer;
  type : ast_case_statement_type;
  is_function : ast_boolean;
  default_item : pointer
}.

(** The [for(i = 0; i < tr -> cases -> items; i ++)] loop of
    [ast_new_case_statement], entered at index [i] with
    [remaining = tr -> cases -> items - i] rounds to go.  [case_items]
    holds the case items built so far. *)
Fixpoint scan_default (case_items : gmap addr ast_case_item)
    (cases : ast_list) (remaining i : nat) (tr : ast_case_statement)
  : result ast_case_statement :=
  match remaining with
  | O => Ok tr
  | S remaining' =>
      let the_case := ast_list_get cases i in
      match the_case with
      | None => Ok tr                                   (* break *)
      | Some _ =>
          item ← deref case_items the_case;
          if is_default item
          then Ok {| expression := expression tr;
                     cases := CaseStatement.cases tr;
                     type := type tr;
                     is_function := is_function tr;
                     default_item := ast_list_get cases i |}   (* break *)
          else scan_default case_items cases remaining' (S i) tr
      end
  end.

(** [ast_new_case_statement(expression, cases, type)]: [default_item]
    starts as [ast_calloc] left it. *)
Definition ast_new_case_statement (case_items : gmap addr ast_case_item)
    (expression : pointer) (cases : list_pointer)
    (type : ast_case_statement_type) : result ast_case_statement :=
  let tr := {| expression := expression;
               cases := cases;
               type := type;
               is_function := AST_FALSE;
               default_item := NULL |} in
  match CaseStatement.cases tr with
  | None => Fault                       (* tr -> cases -> items *)
  | Some l => scan_default case_items l (items l) 0 tr
  end.

(** The item at address [a] is built and carries the flag [b]. *)
Definition flagged (h : gmap addr ast_case_item) (b : bool) (a : addr) : Prop :=
  ∃ item, h !! a = Some item ∧ is_default item = b.

End CaseStatement.

(** ** If-else chains *)

Module IfElse.

(** [ast_if_else]; [conditional_statements] is the list the member points
    to, obtained from [ast_list_new] by the constructor. *)
Record ast_if_else := mk_if_else {
  else_condition : pointer;
  conditional_statements : ast_list
}.

(** [ast_new_if_else(if_condition, else_condition)] *)
Definition ast_new_if_else (if_condition else_condition : pointer)
  : ast_if_else :=
  let tr := {| else_condition := else_condition;
               conditional_statements := ast_list_new |} in
  (* ast_list_append(tr -> conditional_statements, if_condition); *)
  {| else_condition := IfElse.else_condition tr;
     conditional_statements :=
       ast_list_append (conditional_statements tr) if_condition |}.

(** [ast_extend_if_else(conditional_statements, new_statements)]: the list
    of the chain is updated in place. *)
Definition ast_extend_if_else (chain : ast_if_else)
    (new_statements : list_pointer) : ast_if_else :=
  match new_statements with
  | Some l =>
      {| else_condition := else_condition chain;
         conditional_statements :=
           ast_list_concat (conditional_statements chain) l |}
  | None => chain
  end.

End IfElse.

(** ** Event expressions and event controls *)

Module Event.

(** Modelled from the spec: [ast_edge] is declared in a header that is not
    among the sources.  The edges are positive, negative and any, and the
    "none" that [ast_new_event_expression] asserts against; the names are
    those [verilog_ast.c] uses. *)
Inductive ast_edge := EDGE_POS | EDGE_NEG | EDGE_NONE | EDGE_ANY.

#[export] Instance ast_edge_eq_dec : EqDecision ast_edge.
Proof. solve_decision. Defined.

(** Modelled from the spec: [ast_event_expression_type] is declared in a
    header that is not among the sources.  The kinds are posedge, negedge,
    generic expression and sequence; the names are those [verilog_ast.c]
    assigns. *)
Inductive ast_event_expression_type :=
| EVENT_EXPRESSION
| EVENT_POSEDGE
| EVENT_NEGEDGE
| EVENT_SEQUENCE.

(** [ast_event_expression] *)
Record ast_event_expression := mk_event_expression {
  type : ast_event_expression_type;
  expression : pointer;
  sequence : list_pointer
}.

(** [ast_calloc(1, sizeof(ast_event_expression))].  The zero of [type] is
    read only when no branch of [ast_new_event_expression] assigns it, which
    no edge that passes its [assert] does. *)
Definition calloc_event_expression : ast_event_expression :=
  mk_event_expression EVENT_EXPRESSION NULL None.

(** [ast_new_event_expression(trigger_edge, expression)] *)
Definition ast_new_event_expression (trigger_edge : ast_edge)
    (expression : pointer) : result ast_event_expression :=
  let tr := calloc_event_expression in
  _ ← assert (negb (bool_decide (trigger_edge = EDGE_NONE)));
  if decide (trigger_edge = EDGE_POS) then
    Ok {| type := EVENT_POSEDGE; expression := expression;
          sequence := sequence tr |}
  else if decide (trigger_edge = EDGE_NEG) then
    Ok {| type := EVENT_NEGEDGE; expression := expression;
          sequence := sequence tr |}
  else if decide (trigger_edge = EDGE_ANY) then
    Ok {| type := EVENT_EXPRESSION; expression := expression;
          sequence := sequence tr |}
  else Ok tr.

(** [ast_new_event_expression_sequence(left, right)] *)
Definition ast_new_event_expression_sequence (left right : pointer)
  : ast_event_expression :=
  let tr := calloc_event_expression in
  {| type := EVENT_SEQUENCE;
     expression := expression tr;
     sequence :=
       Some (ast_list_append (ast_list_append ast_list_new right) left) |}.

(** Modelled from the spec: [ast_event_control_type] is declared in a header
    that is not among the sources.  [verilog_ast.c] names the "any trigger"
    kind;
    [EVENT_CTRL_OTHER] stands for any further enumerator. *)
Inductive ast_event_control_type :=
| EVENT_CTRL_ANY
| EVENT_CTRL_OTHER (tag : N).

#[export] Instance ast_event_control_type_eq_dec
  : EqDecision ast_event_control_type.
Proof. solve_decision. Defined.

(** [ast_event_control] *)
Record ast_event_control := mk_event_control {
  ctrl_type : ast_event_control_type;
  ctrl_expression : pointer
}.

(** [ast_new_event_control(type, expression)] *)
Definition ast_new_event_control (type : ast_event_control_type)
    (expression : pointer) : result ast_event_control :=
  _ ← (if decide (type = EVENT_CTRL_ANY)
       then assert (bool_decide (expression = NULL))
       else Ok tt);
  Ok {| ctrl_type := type; ctrl_expression := expression |}.

End Event.

(** ** UDP instances *)

Module Udp.

(** [ast_udp_instance] *)
Record ast_udp_instance := mk_udp_instance {
  identifier : pointer;
  range : pointer;
  output : pointer;
  inputs : list_pointer
}.

(** [ast_new_udp_instance(identifier, range, output, inputs)] *)
Definition ast_new_udp_instance (identifier range output : pointer)
    (inputs : list_pointer) : ast_udp_instance :=
  {| identifier := identifier;
     range := range;
     output := output;
     inputs := inputs |}.

End Udp.

(** ** Parameter declarations *)

Module ParamDecl.

(** Modelled from the spec: [ast_parameter_type] is declared in a header
    that is not among the sources.  [verilog_ast.c] names the generic
    numeric kind;
    [PARAM_OTHER] stands for any further enumerator. *)
Inductive ast_parameter_type :=
| PARAM_GENERIC
| PARAM_OTHER (tag : N).

#[export] Instance ast_parameter_type_eq_dec : EqDecision ast_parameter_type.
Proof. solve_decision. Defined.

(** [ast_parameter_declarations] *)
Record ast_parameter_declarations := mk_parameter_declarations {
  assignments : list_pointer;
  signed_values : ast_boolean;
  range : pointer;
  type : ast_parameter_type;
  local : ast_boolean
}.

(** [ast_new_parameter_declarations(assignments, signed_values, local,
                                    range, type)] *)
Definition ast_new_parameter_declarations (assignments : list_pointer)
    (signed_values local : ast_boolean) (range : pointer)
    (type : ast_parameter_type) : ast_parameter_declarations :=
  let tr := {| assignments := assignments;
               signed_values := signed_values;
               range := range;
               type := type;
               local := local |} in
  if decide (type ≠ PARAM_GENERIC) then
    {| assignments := ParamDecl.assignments tr;
       signed_values := AST_FALSE;
       range := NULL;
       type := ParamDecl.type tr;
       local := ParamDecl.local tr |}
  else tr.

End ParamDecl.

(** ** Sequences of extensions *)

Module Extensions.
Import Concatenation IfElse.


(** One [ast_extend_if_else(chain, new_statements)] call per list pointer,
    in order. *)
Definition extend_many (chain : ast_if_else) (calls : list list_pointer)
  : ast_if_else :=
  foldl ast_extend_if_else chain calls.

(** What a list pointer adds: its list, or nothing when it is null. *)
Definition added (new_statements : list_pointer) : ast_list :=
  match new_statements with
  | Some l => l
  | None => []
  end.

End Extensions.

(** ** Loop statements *)

Module Loop.

(** Modelled from the spec: [ast_loop_type] is declared in a header that is
    not among the sources.  A loop is forever, for, while or repeat; the
    names are those [verilog_ast.c] assigns. *)
Inductive ast_loop_type := LOOP_FOREVER | LOOP_FOR | LOOP_WHILE | LOOP_REPEAT.

(** [ast_loop_statement] *)
Record ast_loop_statement := mk_loop_statement {
  type : ast_loop_type;
  inner_statement : pointer;
  initial : pointer;
  condition : pointer;
  modify : pointer
}.

(** [ast_new_forever_loop_statement(inner_statement)] *)
Definition ast_new_forever_loop_statement (inner_statement : pointer)
  : ast_loop_statement :=
  {| type := LOOP_FOREVER;
     inner_statement := inner_statement;
     initial := NULL;
     condition := NULL;
     modify := NULL |}.

(** [ast_new_for_loop_statement(inner_statement, initial_condition,
                                modify_assignment, continue_condition)] *)
Definition ast_new_for_loop_statement (inner_statement initial_condition
    modify_assignment continue_condition : pointer) : ast_loop_statement :=
  {| type := LOOP_FOR;
     inner_statement := inner_statement;
     initial := initial_condition;
     condition := continue_condition;
     modify := modify_assignment |}.

(** [ast_new_while_loop_statement(inner_statement, continue_condition)] *)
Definition ast_new_while_loop_statement (inner_statement
    continue_condition : pointer) : ast_loop_statement :=
  {| type := LOOP_WHILE;
     inner_statement := inner_statement;
     initial := NULL;
     condition := continue_condition;
     modify := NULL |}.

(** [ast_new_repeat_loop_statement(inner_statement, continue_condition)] *)
Definition ast_new_repeat_loop_statement (inner_statement
    continue_condition : pointer) : ast_loop_statement :=
  {| type := LOOP_REPEAT;
     inner_statement := inner_statement;
     initial := NULL;
     condition := continue_condition;
     modify := NULL |}.

(** A loop statement as one of the four constructors returns it. *)
Inductive constructed : ast_loop_statement → Prop :=
| by_forever s : constructed (ast_new_forever_loop_statement s)
| by_for s i m c : constructed (ast_new_for_loop_statement s i m c)
| by_while s c : constructed (ast_new_while_loop_statement s c)
| by_repeat s c : constructed (ast_new_repeat_loop_statement s c).

End Loop.

(** ** Timing control statements *)

Module TimingControl.

(** Modelled from the spec: [ast_timing_control_statement_type] is declared
    in a header that is not among the sources.  [verilog_ast.c] names the
    delay kind and the two event kinds; [TIMING_CTRL_OTHER] stands for any
    further enumerator. *)
Inductive ast_timing_control_statement_type :=
| TIMING_CTRL_DELAY_CONTROL
| TIMING_CTRL_EVENT_CONTROL
| TIMING_CTRL_EVENT_CONTROL_REPEAT
| TIMING_CTRL_OTHER (tag : N).

#[export] Instance ast_timing_control_statement_type_eq_dec
  : EqDecision ast_timing_control_statement_type.
Proof. solve_decision. Defined.

(** The control of a timing control statement: the member that was
    written, [delay] or [event_ctrl]. *)
Inductive timing_control :=
| delay (delay_ctrl : pointer)
| event_ctrl (event_control : pointer).

(** [ast_timing_control_statement] *)
Record ast_timing_control_statement := mk_timing_control_statement {
  type : ast_timing_control_statement_type;
  control : timing_control;
  statement : pointer;
  repeat : pointer
}.

(** [ast_new_timing_control_statement_delay(type, statement, delay_ctrl)] *)
Definition ast_new_timing_control_statement_delay
    (type : ast_timing_control_statement_type)
    (statement delay_ctrl : pointer) : result ast_timing_control_statement :=
  _ ← assert (bool_decide (type = TIMING_CTRL_DELAY_CONTROL));
  Ok {| type := type;
        control := delay delay_ctrl;
        statement := statement;
        repeat := NULL |}.

(** [ast_new_timing_control_statement_event(type, repeat, statement,
                                            event_ctrl)] *)
Definition ast_new_timing_control_statement_event
    (type : ast_timing_control_statement_type)
    (repeat statement event_control : pointer)
  : result ast_timing_control_statement :=
  _ ← assert (bool_decide (type = TIMING_CTRL_EVENT_CONTROL)
              || bool_decide (type = TIMING_CTRL_EVENT_CONTROL_REPEAT));
  Ok {| type := type;
        control := event_ctrl event_control;
        statement := statement;
        repeat := repeat |}.

End TimingControl.

(** ** Switch gates *)

Module SwitchGate.

(** Modelled from the spec: [ast_switchtype] is declared in a header that is
    not among the sources.  [verilog_ast.c] names the two bidirectional
    pass switches; [SWITCH_OTHER] stands for any further enumerator. *)
Inductive ast_switchtype :=
| SWITCH_TRAN
| SWITCH_RTRAN
| SWITCH_OTHER (tag : N).

#[export] Instance ast_switchtype_eq_dec : EqDecision ast_switchtype.
Proof. solve_decision. Defined.

(** The two bidirectional pass switches. *)
Definition bidirectional (t : ast_switchtype) : Prop :=
  t = SWITCH_TRAN ∨ t = SWITCH_RTRAN.

#[export] Instance bidirectional_dec t : Decision (bidirectional t).
Proof. unfold bidirectional. apply _. Defined.

Section Delays.

(** The delay structures are passed by value; their declarations are in a
    header that is not among the sources, so they stay abstract. *)
Context {ast_delay3 ast_delay2 : Type}.

(** The delay of a switch gate: the member that was written, [delay3] or
    [delay2]. *)
Inductive switch_delay :=
| delay3 (delay : ast_delay3)
| delay2 (delay : ast_delay2).

(** [ast_switch_gate] *)
Record ast_switch_gate := mk_switch_gate {
  type : ast_switchtype;
  delay : switch_delay
}.

(** [ast_new_switch_gate_d3(type, delay)] *)
Definition ast_new_switch_gate_d3 (type : ast_switchtype)
    (delay : ast_delay3) : result ast_switch_gate :=
  _ ← assert (negb (bool_decide (type = SWITCH_TRAN))
              && negb (bool_decide (type = SWITCH_RTRAN)));
  Ok {| type := type; delay := delay3 delay |}.

(** [ast_new_switch_gate_d2(type, delay)] *)
Definition ast_new_switch_gate_d2 (type : ast_switchtype)
    (delay : ast_delay2) : result ast_switch_gate :=
  _ ← assert (bool_decide (type = SWITCH_TRAN)
              || bool_decide (type = SWITCH_RTRAN));
  Ok {| type := type; delay := delay2 delay |}.

End Delays.

Arguments switch_delay : clear implicits.
Arguments ast_switch_gate : clear implicits.

End SwitchGate.

(** ** UDP ports *)

Module UdpPort.

(** Modelled from the spec: [ast_port_direction] is declared in a header
    that is not among the sources.  [verilog_ast.c] names the input
    direction; [PORT_OTHER] stands for any further enumerator (output,
    inout, ...). *)
Inductive ast_port_direction :=
| PORT_INPUT
| PORT_OTHER (tag : N).

#[export] Instance ast_port_direction_eq_dec : EqDecision ast_port_direction.
Proof. solve_decision. Defined.

(** The name part of a UDP port: the member that was written, [identifier]
    or [identifiers]. *)
Inductive port_names :=
| identifier (id : pointer)
| identifiers (ids : list_pointer).

(** [ast_udp_port] *)
Record ast_udp_port := mk_udp_port {
  direction : ast_port_direction;
  names : port_names;
  attributes : pointer;
  reg : ast_boolean;
  default_value : pointer
}.

(** [ast_new_udp_port(direction, identifier, attributes, reg,
                      default_value)] *)
Definition ast_new_udp_port (direction : ast_port_direction)
    (identifier attributes : pointer) (reg : ast_boolean)
    (default_value : pointer) : result ast_udp_port :=
  _ ← assert (negb (bool_decide (direction = PORT_INPUT)));
  Ok {| direction := direction;
        names := UdpPort.identifier identifier;
        attributes := attributes;
        reg := reg;
        default_value := default_value |}.

(** [ast_new_udp_input_port(identifiers, attributes)] *)
Definition ast_new_udp_input_port (identifiers : list_pointer)
    (attributes : pointer) : ast_udp_port :=
  {| direction := PORT_INPUT;
     names := UdpPort.identifiers identifiers;
     attributes := attributes;
     reg := AST_FALSE;
     default_value := NULL |}.

End UdpPort.

(** ** Nodes obtained with plain [calloc] *)

(** Four constructors call [calloc] where the others call [ast_calloc].
    They are given here with the heap they allocate in; [sizeof_node] is
    the [sizeof] of the structure, which its declaration fixes. *)

Module TypeDeclaration.
Import Arena.

(** Modelled from the spec: [ast_net_type] is declared in a header that is
    not among the sources.  [verilog_ast.c] names the "none" kind;
    [NET_TYPE_OTHER] stands for any further enumerator. *)
Inductive ast_net_type :=
| NET_TYPE_NONE
| NET_TYPE_OTHER (tag : N).

(** Modelled from the spec: [ast_declaration_type] is declared in a header
    that is not among the sources; a value is the integer of its
    enumerator, as in C. *)
Definition ast_declaration_type := Z.

(** [ast_type_declaration] *)
Record ast_type_declaration := mk_type_declaration {
  type : ast_declaration_type;
  identifiers : list_pointer;
  delay : pointer;
  drive_strength : pointer;
  charge_strength : pointer;
  range : pointer;
  vectored : ast_boolean;
  scalared : ast_boolean;
  is_signed : ast_boolean;
  net_type : ast_net_type
}.

(** [ast_type_declaration * ast_new_type_declaration(ast_declaration_type
    type)] *)
Definition ast_new_type_declaration (sizeof_node : N)
    (type : ast_declaration_type) (st : state)
  : pointer * ast_type_declaration * state :=
  let '(tr, h) := calloc (Data 1 sizeof_node) (heap st) in
  (Some tr,
   {| type := type;
      identifiers := None;
      delay := NULL;
      drive_strength := NULL;
      charge_strength := NULL;
      range := NULL;
      vectored := AST_FALSE;
      scalared := AST_FALSE;
      is_signed := AST_FALSE;
      net_type := NET_TYPE_NONE |},
   mk_state h (head st) (walker st)).

End TypeDeclaration.

Module Switches.
Import Arena.

(** [ast_switches] *)
Record ast_switches := mk_switches {
  type : pointer;
  switches : list_pointer
}.

(** [ast_switches * ast_new_switches(ast_switch_gate * type,
                                     ast_list * switches)] *)
Definition ast_new_switches (sizeof_node : N) (type : pointer)
    (switches : list_pointer) (st : state)
  : pointer * ast_switches * state :=
  let '(tr, h) := calloc (Data 1 sizeof_node) (heap st) in
  (Some tr,
   {| type := type; switches := switches |},
   mk_state h (head st) (walker st)).

End Switches.

Module PullStrength.
Import Arena.

(** Modelled from the spec: [ast_primitive_strength] is declared in a
    header that is not among the sources; a value is the integer of its
    enumerator, as in C. *)
Definition ast_primitive_strength := Z.

(** [ast_pull_strength] *)
Record ast_pull_strength := mk_pull_strength {
  strength_1 : ast_primitive_strength;
  strength_2 : ast_primitive_strength
}.

(** [ast_pull_strength * ast_new_pull_stregth(strength_1, strength_2)] *)
Definition ast_new_pull_stregth (sizeof_node : N)
    (strength_1 strength_2 : ast_primitive_strength) (st : state)
  : pointer * ast_pull_strength * state :=
  let '(tr, h) := calloc (Data 1 sizeof_node) (heap st) in
  (Some tr,
   {| strength_1 := strength_1; strength_2 := strength_2 |},
   mk_state h (head st) (walker st)).

End PullStrength.

Module GateInstantiation.
Import Arena.

(** Modelled from the spec: [ast_gate_type] is declared in a header that is
    not among the sources; a value is the integer of its enumerator, as in
    C. *)
Definition ast_gate_type := Z.

(** [ast_gate_instantiation], with the member the constructor assigns. *)
Record ast_gate_instantiation := mk_gate_instantiation {
  type : ast_gate_type
}.

(** [ast_gate_instantiation * ast_new_gate_instantiation(ast_gate_type
    type)] *)
Definition ast_new_gate_instantiation (sizeof_node : N)
    (type : ast_gate_type) (st : state)
  : pointer * ast_gate_instantiation * state :=
  let '(tr, h) := calloc (Data 1 sizeof_node) (heap st) in
  (Some tr, {| type := type |}, mk_state h (head st) (walker st)).

End GateInstantiation.

Module PlainNodes.
Import Arena.

(** [plain_node st p st']: one of the four constructors, called in state
    [st], returns the node [p] and leaves the state [st']. *)
Inductive plain_node (st : state) : pointer → state → Prop :=
| plain_type_declaration sz ty :
    plain_node st
      (TypeDeclaration.ast_new_type_declaration sz ty st).1.1
      (TypeDeclaration.ast_new_type_declaration sz ty st).2
| plain_switches sz ty sw :
    plain_node st
      (Switches.ast_new_switches sz ty sw st).1.1
      (Switches.ast_new_switches sz ty sw st).2
| plain_pull_strength sz s1 s2 :
    plain_node st
      (PullStrength.ast_new_pull_stregth sz s1 s2 st).1.1
      (PullStrength.ast_new_pull_stregth sz s1 s2 st).2
| plain_gate_instantiation sz ty :
    plain_node st
      (GateInstantiation.ast_new_gate_instantiation sz ty st).1.1
      (GateInstantiation.ast_new_gate_instantiation sz ty st).2.

(** An allocated address that the allocation list [l] does not hold. *)
Definition outside (st : state) (l : list (addr * addr)) (a : addr) : Prop :=
  (a ∉ addrs l) ∧ is_Some (heap st !! a).

End PlainNodes.

(** ** UDP bodies and declarations *)

Module UdpBody.
Import Arena.

(** Modelled from the spec: [ast_udp_body_type] is declared in a header
    that is not among the sources.  A body is sequential or combinatorial;
    the names are those [verilog_ast.c] assigns. *)
Inductive ast_udp_body_type := UDP_BODY_SEQUENTIAL | UDP_BODY_COMBINATORIAL.

(** [ast_udp_body] *)
Record ast_udp_body := mk_udp_body {
  body_type : ast_udp_body_type;
  initial : pointer;
  entries : list_pointer
}.

(** The arena together with the UDP bodies that live in its blocks. *)
Record world := mk_world {
  arena : state;
  bodies : gmap addr ast_udp_body
}.

(** Writing the members of the body [tr] points to. *)
Definition store_body (tr : pointer) (b : ast_udp_body) (st : state)
    (bs : gmap addr ast_udp_body) : result (pointer * world) :=
  match tr with
  | Some a => Ok (tr, mk_world st (<[a := b]> bs))
  | None => Fault
  end.

(** [ast_udp_body * ast_new_udp_sequential_body(initial_statement,
                                                sequential_entries)] *)
Definition ast_new_udp_sequential_body (sizeof_node : N)
    (initial_statement : pointer) (sequential_entries : list_pointer)
    (w : world) : result (pointer * world) :=
  '(tr, st) ← ast_calloc 1 sizeof_node (arena w);
  store_body tr
    {| body_type := UDP_BODY_SEQUENTIAL;
       initial := initial_statement;
       entries := sequential_entries |}
    st (bodies w).

(** [ast_udp_body * ast_new_udp_combinatoral_body(combinatorial_entries)];
    [initial] stays as [ast_calloc] left it. *)
Definition ast_new_udp_combinatoral_body (sizeof_node : N)
    (combinatorial_entries : list_pointer) (w : world)
  : result (pointer * world) :=
  '(tr, st) ← ast_calloc 1 sizeof_node (arena w);
  store_body tr
    {| body_type := UDP_BODY_COMBINATORIAL;
       initial := NULL;
       entries := combinatorial_entries |}
    st (bodies w).

End UdpBody.

Module UdpDeclaration.
Import Arena UdpBody.

(** [ast_udp_declaration] *)
Record ast_udp_declaration := mk_udp_declaration {
  attributes : pointer;
  identifier : pointer;
  ports : list_pointer;
  body_entries : list_pointer;
  initial : pointer;
  body_type : ast_udp_body_type
}.

(** [ast_udp_declaration * ast_new_udp_declaration(attributes, identifier,
    ports, body)]: the members of [body] are copied, then [body] is handed
    to [free]. *)
Definition ast_new_udp_declaration (sizeof_node : N)
    (attributes identifier : pointer) (ports : list_pointer)
    (body : pointer) (w : world)
  : result (pointer * ast_udp_declaration * world) :=
  '(tr, st) ← ast_calloc 1 sizeof_node (arena w);
  b ← deref (bodies w) body;
  let node := {| attributes := attributes;
                 identifier := identifier;
                 ports := ports;
                 body_entries := entries b;
                 initial := UdpBody.initial b;
                 body_type := UdpBody.body_type b |} in
  (* free(body); *)
  h ← free body (heap st);
  let bs := match body with
            | Some a => delete a (bodies w)
            | None => bodies w
            end in
  Ok (tr, node, mk_world (mk_state h (head st) (walker st)) bs).

End UdpDeclaration.

(** ** Assignments *)

Module ProceduralAssignment.

(** [ast_procedural_assignment] *)
Record ast_procedural_assignment := mk_procedural_assignment {
  lval : pointer;
  expression : pointer;
  delay_or_event : pointer
}.

End ProceduralAssignment.

Module ContinuousAssignment.

(** [ast_continuous_assignment] *)
Record ast_continuous_assignment := mk_continuous_assignment {
  assignments : list_pointer;
  drive_strength : pointer;
  delay : pointer
}.

End ContinuousAssignment.

Module HybridAssignment.

(** Modelled from the spec: [ast_hybrid_assignment_type] is declared in a
    header that is not among the sources; a value is the integer of its
    enumerator, as in C. *)
Definition ast_hybrid_assignment_type := Z.

(** What a hybrid assignment works on: the member that was written,
    [assignment] or [lval]. *)
Inductive hybrid_operand :=
| assignment (a : pointer)
| lval (l : pointer).

(** [ast_hybrid_assignment] *)
Record ast_hybrid_assignment := mk_hybrid_assignment {
  type : ast_hybrid_assignment_type;
  operand : hybrid_operand
}.

End HybridAssignment.

Module Assignment.
Import ProceduralAssignment ContinuousAssignment HybridAssignment.

(** Modelled from the spec: [ast_assignment_type] is declared in a header
    that is not among the sources.  An assignment is continuous, blocking,
    nonblocking or hybrid; the names are those [verilog_ast.c] assigns. *)
Inductive ast_assignment_type :=
| ASSIGNMENT_CONTINUOUS
| ASSIGNMENT_BLOCKING
| ASSIGNMENT_NONBLOCKING
| ASSIGNMENT_HYBRID.

(** The structure an assignment points to: the member that was written,
    [continuous], [procedural] or [hybrid], with the structure that the
    constructor allocated for it. *)
Inductive assignment_payload :=
| continuous (c : ast_continuous_assignment)
| procedural (p : ast_procedural_assignment)
| hybrid (h : ast_hybrid_assignment).

(** [ast_assignment] *)
Record ast_assignment := mk_assignment {
  type : ast_assignment_type;
  payload : assignment_payload
}.

(** [ast_new_hybrid_assignment(type, assignment)] *)
Definition ast_new_hybrid_assignment (type : ast_hybrid_assignment_type)
    (assignment : pointer) : ast_assignment :=
  {| type := ASSIGNMENT_HYBRID;
     payload := hybrid {| HybridAssignment.type := type;
                          operand := HybridAssignment.assignment assignment |} |}.

(** [ast_new_hybrid_lval_assignment(type, lval)] *)
Definition ast_new_hybrid_lval_assignment (type : ast_hybrid_assignment_type)
    (lval : pointer) : ast_assignment :=
  {| type := ASSIGNMENT_HYBRID;
     payload := hybrid {| HybridAssignment.type := type;
                          operand := HybridAssignment.lval lval |} |}.

(** [ast_new_blocking_assignment(lval, expression, delay_or_event)] *)
Definition ast_new_blocking_assignment (lval expression
    delay_or_event : pointer) : ast_assignment :=
  {| type := ASSIGNMENT_BLOCKING;
     payload := procedural {| ProceduralAssignment.lval := lval;
                              expression := expression;
                              delay_or_event := delay_or_event |} |}.

(** [ast_new_nonblocking_assignment(lval, expression, delay_or_event)] *)
Definition ast_new_nonblocking_assignment (lval expression
    delay_or_event : pointer) : ast_assignment :=
  {| type := ASSIGNMENT_NONBLOCKING;
     payload := procedural {| ProceduralAssignment.lval := lval;
                              expression := expression;
                              delay_or_event := delay_or_event |} |}.

(** [ast_new_continuous_assignment(assignments, strength, delay)] *)
Definition ast_new_continuous_assignment (assignments : list_pointer)
    (strength delay : pointer) : ast_assignment :=
  let trc := {| ContinuousAssignment.assignments := assignments;
                drive_strength := strength;
                ContinuousAssignment.delay := delay |} in
  {| type := ASSIGNMENT_CONTINUOUS; payload := continuous trc |}.

(** An assignment as one of the five constructors returns it. *)
Inductive constructed : ast_assignment → Prop :=
| by_hybrid t a : constructed (ast_new_hybrid_assignment t a)
| by_hybrid_lval t l : constructed (ast_new_hybrid_lval_assignment t l)
| by_blocking l e d : constructed (ast_new_blocking_assignment l e d)
| by_nonblocking l e d : constructed (ast_new_nonblocking_assignment l e d)
| by_continuous l s d : constructed (ast_new_continuous_assignment l s d).

End Assignment.

(** * Properties *)

(** ** Concatenations grow at the front *)

Module ConcatenationFacts.
Import Concatenation.

Lemma new_concatenation_items t r first_value :
  items (ast_new_concatenation t r first_value) = [first_value].
Proof. reflexivity. Qed.

Lemma new_concatenation_fields t r first_value :
  repeat (ast_new_concatenation t r first_value) = r
  ∧ type (ast_new_concatenation t r first_value) = t.
Proof. by split. Qed.

Lemma extend_concatenation_items c r x :
  items (ast_extend_concatenation c r x) = x :: items c.
Proof. reflexivity. Qed.

Lemma extend_concatenation_fields c r x :
  repeat (ast_extend_concatenation c r x) = repeat c
  ∧ type (ast_extend_concatenation c r x) = type c.
Proof. by split. Qed.

Lemma extend_all_items xs : ∀ c,
  items (extend_all c xs) = reverse xs ++ items c.
Proof.
  induction xs as [|x xs IH]; intros c; simpl; [done|].
  rewrite IH, extend_concatenation_items, reverse_cons.
  by rewrite <- app_assoc.
Qed.

Lemma extend_all_reverses t r first_value xs :
  items (extend_all (ast_new_concatenation t r first_value) xs)
  = reverse (first_value :: xs).
Proof.
  by rewrite extend_all_items, new_concatenation_items, reverse_cons.
Qed.

(** C1.  Concatenation order law: a concatenation made from [A] with a
    null repeat count holds exactly [A]; every extension puts its item in
    front of the items already there, whatever the repeat argument of the
    call; so extending with [B] and then with [C] leaves the items reading
    [C; B; A]. *)
Theorem concatenation_order_law (t : ast_concatenation_type)
    (A B C : pointer) :
  items (ast_new_concatenation t NULL A) = [A]
  ∧ (∀ c r x, items (ast_extend_concatenation c r x) = x :: items c)
  ∧ (∀ rB rC,
       items (ast_extend_concatenation
                (ast_extend_concatenation
                   (ast_new_concatenation t NULL A) rB B) rC C)
       = [C; B; A]).
Proof.
  split; [apply new_concatenation_items|].
  split; [apply extend_concatenation_items|].
  intros rB rC.
  by rewrite !extend_concatenation_items, new_concatenation_items.
Qed.

End ConcatenationFacts.

(** ** If-else chains grow at the back *)

Module IfElseFacts.
Import IfElse.

Lemma new_if_else_statements c1 else_body :
  conditional_statements (ast_new_if_else c1 else_body) = [c1].
Proof. reflexivity. Qed.

Lemma new_if_else_else c1 else_body :
  else_condition (ast_new_if_else c1 else_body) = else_body.
Proof. reflexivity. Qed.

Lemma extend_if_else_statements chain l :
  conditional_statements (ast_extend_if_else chain (Some l))
  = conditional_statements chain ++ l.
Proof. reflexivity. Qed.

Lemma extend_if_else_null chain :
  ast_extend_if_else chain None = chain.
Proof. reflexivity. Qed.

Lemma extend_if_else_else chain new_statements :
  else_condition (ast_extend_if_else chain new_statements)
  = else_condition chain.
Proof. by destruct new_statements. Qed.

Lemma extend_if_else_keeps_prefix chain new_statements :
  conditional_statements chain
    `prefix_of` conditional_statements (ast_extend_if_else chain new_statements).
Proof.
  destruct new_statements as [l|]; simpl; [|done].
  by apply prefix_app_r.
Qed.

(** C2.  If-else priority law: a chain made from [c1] holds exactly [c1];
    extending a chain with a list puts the list after the entries already
    there; so extending with [c2; c3] leaves the conditional statements
    reading [c1; c2; c3], the entry added first still first. *)
Theorem if_else_priority_law (c1 c2 c3 else_body : pointer) :
  conditional_statements (ast_new_if_else c1 else_body) = [c1]
  ∧ (∀ chain l,
       conditional_statements (ast_extend_if_else chain (Some l))
       = conditional_statements chain ++ l)
  ∧ conditional_statements
      (ast_extend_if_else (ast_new_if_else c1 else_body) (Some [c2; c3]))
    = [c1; c2; c3]
  ∧ head (conditional_statements
            (ast_extend_if_else (ast_new_if_else c1 else_body)
               (Some [c2; c3])))
    = Some c1.
Proof.
  split; [apply new_if_else_statements|].
  split; [apply extend_if_else_statements|].
  by rewrite extend_if_else_statements, new_if_else_statements.
Qed.

End IfElseFacts.

(** ** Lvalue tags and payloads *)

Module LvalueFacts.
Import Lvalue.

Lemma forms_disjoint t : identifier_form t → concatenation_form t → False.
Proof. intros [->|[->| ->]] [?|?]; discriminate. Qed.

Lemma new_lvalue_id_spec t id :
  ast_new_lvalue_id t id
  = if decide (identifier_form t) then Ok (mk_lvalue t (identifier id))
    else AssertionFailed.
Proof.
  unfold ast_new_lvalue_id, identifier_form.
  destruct t; reflexivity.
Qed.

Lemma new_lvalue_concat_spec t c :
  ast_new_lvalue_concat t c
  = if decide (concatenation_form t) then Ok (mk_lvalue t (concatenation c))
    else AssertionFailed.
Proof.
  unfold ast_new_lvalue_concat, concatenation_form.
  destruct t; reflexivity.
Qed.

Lemma new_lvalue_id_ok t id lv :
  ast_new_lvalue_id t id = Ok lv →
  identifier_form t ∧ type lv = t ∧ data lv = identifier id.
Proof.
  rewrite new_lvalue_id_spec. case_decide; [|discriminate].
  by intros [= <-].
Qed.

Lemma new_lvalue_concat_ok t c lv :
  ast_new_lvalue_concat t c = Ok lv →
  concatenation_form t ∧ type lv = t ∧ data lv = concatenation c.
Proof.
  rewrite new_lvalue_concat_spec. case_decide; [|discriminate].
  by intros [= <-].
Qed.

(** C5.  Lvalue tag/constructor pairing: the identifier constructor stops
    at its assertion for every tag outside the identifier form, and the
    concatenation constructor for every tag outside the concatenation form;
    inside its form, each returns the node with the supplied tag and the
    supplied payload; and a node that either constructor returns never
    pairs a tag of one form with a payload of the other. *)
Theorem lvalue_tag_constructor_pairing (t : ast_lvalue_type)
    (id concat : pointer) :
  (¬ identifier_form t → ast_new_lvalue_id t id = AssertionFailed)
  ∧ (¬ concatenation_form t →
       ast_new_lvalue_concat t concat = AssertionFailed)
  ∧ (identifier_form t →
       ast_new_lvalue_id t id = Ok (mk_lvalue t (identifier id)))
  ∧ (concatenation_form t →
       ast_new_lvalue_concat t concat = Ok (mk_lvalue t (concatenation concat)))
  ∧ (∀ lv, ast_new_lvalue_id t id = Ok lv
           ∨ ast_new_lvalue_concat t concat = Ok lv →
           well_paired lv).
Proof.
  rewrite new_lvalue_id_spec, new_lvalue_concat_spec.
  repeat split.
  - intros Hn. by rewrite decide_False.
  - intros Hn. by rewrite decide_False.
  - intros Hy. by rewrite decide_True.
  - intros Hy. by rewrite decide_True.
  - intros lv [H|H]; case_decide; try discriminate;
      injection H as <-; assumption.
Qed.

(** The pairing law at a concatenation-only tag handed to the identifier
    constructor, and at an identifier tag handed to it. *)
Lemma lvalue_tag_constructor_pairing_witness :
  ast_new_lvalue_id NET_CONCATENATION (Some 1%positive) = AssertionFailed
  ∧ ast_new_lvalue_concat GENVAR_IDENTIFIER (Some 2%positive) = AssertionFailed
  ∧ ast_new_lvalue_id VAR_IDENTIFIER (Some 1%positive)
    = Ok (mk_lvalue VAR_IDENTIFIER (identifier (Some 1%positive)))
  ∧ ast_new_lvalue_concat VAR_CONCATENATION (Some 2%positive)
    = Ok (mk_lvalue VAR_CONCATENATION (concatenation (Some 2%positive))).
Proof.
  split.
  { apply (lvalue_tag_constructor_pairing NET_CONCATENATION
             (Some 1%positive) (Some 2%positive)).
    intros [H|[H|H]]; discriminate H. }
  split.
  { apply (lvalue_tag_constructor_pairing GENVAR_IDENTIFIER
             (Some 1%positive) (Some 2%positive)).
    intros [H|H]; discriminate H. }
  split.
  { apply (lvalue_tag_constructor_pairing VAR_IDENTIFIER
             (Some 1%positive) (Some 2%positive)).
    right; left; reflexivity. }
  apply (lvalue_tag_constructor_pairing VAR_CONCATENATION
           (Some 1%positive) (Some 2%positive)).
  right; reflexivity.
Defined.

End LvalueFacts.

(** ** Event edges and the any-trigger control *)

Module EventFacts.
Import Event.

Lemma new_event_expression_none e :
  ast_new_event_expression EDGE_NONE e = AssertionFailed.
Proof. reflexivity. Qed.

Lemma new_event_expression_stores edge e ev :
  ast_new_event_expression edge e = Ok ev → expression ev = e.
Proof. destruct edge; simpl; intros [= <-]; reflexivity. Qed.

Lemma new_event_control_any_null :
  ast_new_event_control EVENT_CTRL_ANY NULL
  = Ok (mk_event_control EVENT_CTRL_ANY NULL).
Proof. reflexivity. Qed.

Lemma new_event_control_other tag e :
  ast_new_event_control (EVENT_CTRL_OTHER tag) e
  = Ok (mk_event_control (EVENT_CTRL_OTHER tag) e).
Proof. reflexivity. Qed.

(** C6.  Event edge mapping and any-trigger rejection: a positive edge
    gives the posedge kind, a negative edge the negedge kind, the "any"
    edge the generic expression kind, each time with the supplied
    expression stored; and an event control of the any-trigger type with a
    non-null expression stops at its assertion. *)
Theorem event_edge_mapping (e : pointer) :
  ast_new_event_expression EDGE_POS e
    = Ok (mk_event_expression EVENT_POSEDGE e None)
  ∧ ast_new_event_expression EDGE_NEG e
    = Ok (mk_event_expression EVENT_NEGEDGE e None)
  ∧ ast_new_event_expression EDGE_ANY e
    = Ok (mk_event_expression EVENT_EXPRESSION e None)
  ∧ (∀ a : addr,
       ast_new_event_control EVENT_CTRL_ANY (Some a) = AssertionFailed).
Proof. repeat split. Qed.

End EventFacts.

(** ** Parameter declarations *)

Module ParamDeclFacts.
Import ParamDecl.

Lemma new_parameter_declarations_kept assignments signed_values local range type :
  let tr := ast_new_parameter_declarations assignments signed_values local
              range type in
  ParamDecl.assignments tr = assignments
  ∧ ParamDecl.type tr = type
  ∧ ParamDecl.local tr = local.
Proof. simpl. unfold ast_new_parameter_declarations. by case_decide. Qed.

(** C9.  Parameter-declaration field suppression: for a type other than
    the generic kind the node's range is null and its signed flag false,
    whatever was supplied; for the generic kind both are the supplied
    arguments. *)
Theorem parameter_declarations_suppression (assignments : list_pointer)
    (signed_values local : ast_boolean) (range : pointer)
    (type : ast_parameter_type) :
  let tr := ast_new_parameter_declarations assignments signed_values local
              range type in
  (type ≠ PARAM_GENERIC →
     ParamDecl.range tr = NULL ∧ ParamDecl.signed_values tr = AST_FALSE)
  ∧ (type = PARAM_GENERIC →
     ParamDecl.range tr = range ∧ ParamDecl.signed_values tr = signed_values).
Proof.
  simpl. unfold ast_new_parameter_declarations.
  split; intros Ht; case_decide; done.
Qed.

(** The suppression at a non-generic type with a range and the signed flag
    supplied, and the generic type with the same arguments. *)
Lemma parameter_declarations_suppression_witness :
  (ParamDecl.range
     (ast_new_parameter_declarations None AST_TRUE AST_FALSE
        (Some 7%positive) (PARAM_OTHER 1)) = NULL
   ∧ ParamDecl.signed_values
       (ast_new_parameter_declarations None AST_TRUE AST_FALSE
          (Some 7%positive) (PARAM_OTHER 1)) = AST_FALSE)
  ∧ (ParamDecl.range
       (ast_new_parameter_declarations None AST_TRUE AST_FALSE
          (Some 7%positive) PARAM_GENERIC) = Some 7%positive
     ∧ ParamDecl.signed_values
         (ast_new_parameter_declarations None AST_TRUE AST_FALSE
            (Some 7%positive) PARAM_GENERIC) = AST_TRUE).
Proof.
  split.
  - apply (parameter_declarations_suppression None AST_TRUE AST_FALSE
             (Some 7%positive) (PARAM_OTHER 1)).
    discriminate.
  - apply (parameter_declarations_suppression None AST_TRUE AST_FALSE
             (Some 7%positive) PARAM_GENERIC).
    reflexivity.
Defined.

End ParamDeclFacts.

(** ** The constant flag of expressions *)

Module ExpressionFacts.
Import Expression.

Lemma new_expression_primary_ok primaries a pv :
  primaries !! a = Some pv →
  ast_new_expression_primary primaries (Some a)
  = Ok (mk_expression PRIMARY_EXPRESSION NULL NULL NULL NULL (Some a) 0%Z
          (bool_decide (primary_type pv = CONSTANT_PRIMARY)) NULL).
Proof.
  intros Ha. unfold ast_new_expression_primary; simpl. rewrite Ha; simpl.
  by destruct (primary_type pv).
Qed.

Lemma new_expression_primary_null primaries :
  ast_new_expression_primary primaries NULL = Fault.
Proof. reflexivity. Qed.

Lemma constant_primary_is_constant primaries a vt :
  primaries !! a = Some (ast_new_constant_primary vt) →
  ∀ e, ast_new_expression_primary primaries (Some a) = Ok e →
       constant e = AST_TRUE.
Proof.
  intros Ha e. rewrite (new_expression_primary_ok _ _ _ Ha).
  by intros [= <-].
Qed.

Lemma new_unary_expression_constant operand op attr c :
  constant (ast_new_unary_expression operand op attr c) = c.
Proof. reflexivity. Qed.

Lemma new_binary_expression_constant l r op attr c :
  constant (ast_new_binary_expression l r op attr c) = c.
Proof. reflexivity. Qed.

Lemma new_range_expression_fields l r :
  ast_new_range_expression l r
  = mk_expression RANGE_EXPRESSION_UP_DOWN NULL l r NULL NULL 0%Z
      (constant calloc_expression) NULL.
Proof. reflexivity. Qed.

Lemma new_index_expression_fields l :
  ast_new_index_expression l
  = mk_expression RANGE_EXPRESSION_INDEX NULL l NULL NULL NULL 0%Z
      (constant calloc_expression) NULL.
Proof. reflexivity. Qed.

(** C7, as the spec states it, fails: the range-form constructors do not
    mark their result constant.  A range expression over two operands comes
    back with the flag false. *)
Lemma range_expression_not_marked_constant :
  constant (ast_new_range_expression (Some 1%positive) (Some 2%positive))
    ≠ AST_TRUE
  ∧ constant (ast_new_index_expression (Some 1%positive)) ≠ AST_TRUE.
Proof. split; discriminate. Qed.

(** C7, amended.  Constant flag at construction: the expression wrapped
    around a primary is constant exactly when the primary's type is the
    constant-primary one; a string expression is always constant; the
    range-form constructors never assign the flag, so their result keeps
    the false that the allocator left, whatever the operands; and where a
    constructor takes the flag as an argument it stores that argument,
    without looking at the operands. *)
Theorem constant_flag_at_construction
    (primaries : gmap addr ast_primary) (a : addr) (pv : ast_primary) :
  primaries !! a = Some pv →
  (∃ e, ast_new_expression_primary primaries (Some a) = Ok e
        ∧ primary e = Some a
        ∧ (constant e = AST_TRUE ↔ primary_type pv = CONSTANT_PRIMARY))
  ∧ (∀ s, constant (ast_new_string_expression s) = AST_TRUE)
  ∧ (∀ l r, constant (ast_new_range_expression l r) = AST_FALSE)
  ∧ (∀ l, constant (ast_new_index_expression l) = AST_FALSE)
  ∧ (∀ operand op attr c,
       constant (ast_new_unary_expression operand op attr c) = c)
  ∧ (∀ l r op attr c,
       constant (ast_new_binary_expression l r op attr c) = c).
Proof.
  intros Ha. split; [|done].
  eexists. split; [by apply new_expression_primary_ok|]. simpl.
  split; [done|]. by rewrite bool_decide_eq_true.
Qed.

(** The flag for a constant primary and for a general primary held at two
    addresses. *)
Lemma constant_flag_at_construction_witness :
  let primaries : gmap addr ast_primary :=
    <[1%positive := ast_new_constant_primary 0%Z]>
      (<[2%positive := ast_new_primary 0%Z]> ∅) in
  (∃ e, ast_new_expression_primary primaries (Some 1%positive) = Ok e
        ∧ primary e = Some 1%positive
        ∧ (constant e = AST_TRUE ↔ CONSTANT_PRIMARY = CONSTANT_PRIMARY))
  ∧ (∃ e, ast_new_expression_primary primaries (Some 2%positive) = Ok e
          ∧ primary e = Some 2%positive
          ∧ (constant e = AST_TRUE ↔ PRIMARY = CONSTANT_PRIMARY)).
Proof.
  intros primaries. split.
  - apply (constant_flag_at_construction primaries 1%positive
             (ast_new_constant_primary 0%Z)).
    reflexivity.
  - apply (constant_flag_at_construction primaries 2%positive
             (ast_new_primary 0%Z)).
    reflexivity.
Defined.

End ExpressionFacts.

(** ** What a constructor keeps of its arguments *)

Module RoundTripFacts.
Import FunctionCall Udp.

Lemma new_function_call_arguments id c s attr args :
  arguments (ast_new_function_call id c s attr args)
  = Some (default ast_list_new args).
Proof. by destruct args. Qed.

Lemma new_function_call_arguments_not_null id c s attr args :
  arguments (ast_new_function_call id c s attr args) ≠ None.
Proof. by destruct args. Qed.

(** C8, as the spec states it, fails: a null argument list handed to the
    function-call constructor is not what the node holds afterwards. *)
Lemma function_call_null_arguments_replaced :
  arguments (ast_new_function_call (Some 1%positive) AST_FALSE AST_TRUE
               NULL None)
    ≠ None.
Proof. discriminate. Qed.

(** C8, amended.  Round trip: the function-call node holds the supplied
    function, constant flag, system flag and attributes; it holds the
    supplied argument list when that is not null, and a new empty list when
    it is null; the UDP-instance node holds the supplied identifier, range,
    output and inputs. *)
Theorem constructor_round_trip (id attr : pointer) (c s : ast_boolean)
    (args : list_pointer) (identifier range output : pointer)
    (inputs : list_pointer) :
  (let tr := ast_new_function_call id c s attr args in
   function tr = id
   ∧ FunctionCall.constant tr = c
   ∧ system tr = s
   ∧ attributes tr = attr
   ∧ arguments tr = match args with
                    | Some l => Some l
                    | None => Some ast_list_new
                    end)
  ∧ (let tr := ast_new_udp_instance identifier range output inputs in
     Udp.identifier tr = identifier
     ∧ Udp.range tr = range
     ∧ Udp.output tr = output
     ∧ Udp.inputs tr = inputs).
Proof. by destruct args. Qed.

End RoundTripFacts.

(** ** The cached default of a case statement *)

Module CaseFacts.
Import CaseStatement.

Lemma new_case_item_not_default conditions body :
  is_default (ast_new_case_item conditions body) = AST_FALSE.
Proof. reflexivity. Qed.

Lemma get_middle (skipped : list addr) x rest :
  ast_list_get (Some <$> (skipped ++ x :: rest)) (length skipped) = Some x.
Proof.
  unfold ast_list_get.
  by rewrite list_lookup_fmap, lookup_app_r, Nat.sub_diag.
Qed.

Lemma get_past_end (l : ast_list) i :
  length l ≤ i → ast_list_get l i = NULL.
Proof.
  intros Hi. unfold ast_list_get. by rewrite lookup_ge_None_2.
Qed.

(** One round of the scan over a built, unflagged item moves on. *)
Lemma scan_default_step h skipped p rest remaining tr :
  flagged h false p →
  scan_default h (Some <$> (skipped ++ p :: rest)) (S remaining)
    (length skipped) tr
  = scan_default h (Some <$> ((skipped ++ [p]) ++ rest)) remaining
      (length (skipped ++ [p])) tr.
Proof.
  intros [ip [Hp Hpd]]. simpl.
  rewrite get_middle; simpl. rewrite Hp; simpl. rewrite Hpd.
  by rewrite length_app, Nat.add_1_r, <- app_assoc.
Qed.

(** The scan from index [length skipped], over items that are all built:
    it stops at the first flagged one. *)
Lemma scan_default_hit h pre a post tr :
  Forall (flagged h false) pre →
  flagged h true a →
  ∀ skipped,
    scan_default h (Some <$> (skipped ++ pre ++ a :: post))
      (length (pre ++ a :: post)) (length skipped) tr
    = Ok (mk_case_statement (expression tr) (cases tr) (type tr)
            (is_function tr) (Some a)).
Proof.
  intros Hpre [item [Ha Hd]].
  induction Hpre as [|p pre Hp _ IH]; intros skipped.
  - simpl. rewrite get_middle; simpl. by rewrite Ha; simpl; rewrite Hd.
  - change (length ((p :: pre) ++ a :: post))
      with (S (length (pre ++ a :: post))).
    change ((p :: pre) ++ a :: post) with (p :: (pre ++ a :: post)).
    rewrite scan_default_step by done. apply IH.
Qed.

(** The scan over items that are all built and none flagged: it runs to
    the end and changes nothing. *)
Lemma scan_default_miss h pre tr :
  Forall (flagged h false) pre →
  ∀ skipped,
    scan_default h (Some <$> (skipped ++ pre)) (length pre)
      (length skipped) tr
    = Ok tr.
Proof.
  intros Hpre.
  induction Hpre as [|p pre Hp _ IH]; intros skipped; [done|].
  change (length (p :: pre)) with (S (length pre)).
  rewrite scan_default_step by done. apply IH.
Qed.

(** A null element ends the scan, as the end of the list does. *)
Lemma scan_default_null_element h (l : ast_list) remaining i tr :
  l !! i = Some NULL →
  scan_default h l (S remaining) i tr = Ok tr.
Proof.
  intros Hi. cbn [scan_default]. unfold ast_list_get. by rewrite Hi.
Qed.

Lemma new_case_statement_null_cases h e ty :
  ast_new_case_statement h e None ty = Fault.
Proof. reflexivity. Qed.

(** C4.  Case default caching: when the items before [a] are built and
    not flagged, and [a] is built and flagged default, the node's
    [default_item] is [a], whatever follows [a] in the list (further
    flagged items included); and when no item of the list is flagged,
    [default_item] is null.  The other members are the arguments. *)
Theorem case_default_is_first_flagged (h : gmap addr ast_case_item)
    (e : pointer) (ty : ast_case_statement_type) (pre : list addr) :
  Forall (flagged h false) pre →
  (∀ a post,
     flagged h true a →
     ast_new_case_statement h e (Some (Some <$> (pre ++ a :: post))) ty
     = Ok (mk_case_statement e (Some (Some <$> (pre ++ a :: post))) ty
             AST_FALSE (Some a)))
  ∧ ast_new_case_statement h e (Some (Some <$> pre)) ty
    = Ok (mk_case_statement e (Some (Some <$> pre)) ty AST_FALSE NULL).
Proof.
  intros Hpre. split.
  - intros a post Ha. unfold ast_new_case_statement; simpl.
    unfold items. rewrite length_fmap.
    exact (scan_default_hit h pre a post
             (mk_case_statement e _ ty AST_FALSE NULL) Hpre Ha []).
  - unfold ast_new_case_statement; simpl.
    unfold items. rewrite length_fmap.
    exact (scan_default_miss h pre _ Hpre []).
Qed.

(** Items [i0; i1; i2] at addresses 10, 11, 12, with [i1] and [i2] both
    flagged default: the node caches [i1].  With [i0] alone, nothing is
    cached. *)
Lemma case_default_is_first_flagged_witness :
  let i0 := ast_new_case_item None (Some 20%positive) in
  let i1 := mk_case_item None (Some 21%positive) AST_TRUE in
  let i2 := mk_case_item None (Some 22%positive) AST_TRUE in
  let h : gmap addr ast_case_item :=
    <[10%positive := i0]> (<[11%positive := i1]> (<[12%positive := i2]> ∅)) in
  let l := [Some 10%positive; Some 11%positive; Some 12%positive] in
  ast_new_case_statement h NULL (Some l) CASE
    = Ok (mk_case_statement NULL (Some l) CASE AST_FALSE (Some 11%positive))
  ∧ ast_new_case_statement h NULL (Some [Some 10%positive]) CASEX
    = Ok (mk_case_statement NULL (Some [Some 10%positive]) CASEX AST_FALSE
            NULL).
Proof.
  intros i0 i1 i2 h l.
  assert (Hpre : Forall (flagged h false) [10%positive]).
  { constructor; [|constructor]. exists i0. split; reflexivity. }
  split.
  - apply (proj1 (case_default_is_first_flagged h NULL CASE [10%positive]
                    Hpre) 11%positive [12%positive]).
    exists i1. split; reflexivity.
  - exact (proj2 (case_default_is_first_flagged h NULL CASEX [10%positive]
                    Hpre)).
Defined.

End CaseFacts.

(** ** Appending to an attribute list *)

Module AttributesFacts.
Import Attributes.

Lemma append_loop_null fuel h : append_loop fuel h NULL = Fault.
Proof. by destruct fuel. Qed.

Lemma append_loop_dangling fuel h a :
  h !! a = None → append_loop fuel h (Some a) = Fault.
Proof. intros Ha. destruct fuel; simpl; by rewrite Ha. Qed.

(** Along a chain the walk ends on the last attribute, given one unit of
    fuel per attribute before it. *)
Lemma append_loop_chain h w l : ∀ p fuel,
  chain h p (l ++ [w]) → length l ≤ fuel →
  append_loop fuel h p = Ok (Some w).
Proof.
  induction l as [|a l IH]; intros p fuel Hc Hf; simpl in Hc.
  - destruct Hc as [-> [c [Hw Hn]]].
    destruct fuel; simpl; rewrite Hw; simpl; by rewrite Hn.
  - destruct Hc as [-> [c [Ha Hc]]].
    destruct fuel as [|fuel]; [simpl in Hf; lia|].
    simpl. rewrite Ha; simpl.
    destruct (next c) as [n|] eqn:Hn.
    + apply IH; [done|simpl in Hf; lia].
    + destruct l; simpl in Hc; by destruct Hc.
Qed.

(** Wherever the walk ends, it ends on a live attribute with a null
    [next]. *)
Lemma append_loop_ok fuel h : ∀ p q,
  append_loop fuel h p = Ok q →
  ∃ w cw, q = Some w ∧ h !! w = Some cw ∧ next cw = NULL.
Proof.
  induction fuel as [|fuel IH]; intros [a|] q; simpl; try discriminate.
  - destruct (h !! a) as [c|] eqn:Ha; simpl; [|discriminate].
    destruct (next c) eqn:Hn; [discriminate|].
    intros [= <-]. eauto.
  - destruct (h !! a) as [c|] eqn:Ha; simpl; [|discriminate].
    destruct (next c) as [n|] eqn:Hn.
    + apply IH.
    + intros [= <-]. eauto.
Qed.

Lemma append_attribute_null_parent fuel h toadd :
  ast_append_attribute fuel h NULL toadd = Fault.
Proof. reflexivity. Qed.

(** A list of exactly one attribute, as [ast_new_attributes] makes it,
    cannot be appended to. *)
Lemma append_attribute_singleton fuel h a name value toadd :
  h !! a = Some (ast_new_attributes name value) →
  ast_append_attribute fuel h (Some a) toadd = Fault.
Proof.
  intros Ha. unfold ast_append_attribute; simpl. rewrite Ha; simpl.
  by rewrite append_loop_null.
Qed.

(** C10.  Appending starts at [parent -> next], not at [parent].  For a
    live [parent]: when [parent -> next] is null the call dereferences a
    null pointer, whatever the bound on the walk; when the chain from
    [parent -> next] ends in an attribute [w], the call returns, with
    [toadd] stored in [w -> next] and nothing else changed; and whenever
    the call returns, [parent -> next] was not null and [parent] is as it
    was before the call, so [toadd] has not been made its successor. *)
Theorem append_attribute_starts_after_parent
    (h : gmap addr ast_node_attributes) (parent : addr)
    (pc : ast_node_attributes) (toadd : pointer) :
  h !! parent = Some pc →
  (next pc = NULL →
     ∀ fuel, ast_append_attribute fuel h (Some parent) toadd = Fault)
  ∧ (∀ l w cw,
       chain h (next pc) (l ++ [w]) → h !! w = Some cw →
       ∀ fuel, length l ≤ fuel →
         ast_append_attribute fuel h (Some parent) toadd
         = Ok (<[w := mk_attr (attr_name cw) (attr_value cw) toadd]> h))
  ∧ (∀ fuel h',
       ast_append_attribute fuel h (Some parent) toadd = Ok h' →
       next pc ≠ NULL ∧ h' !! parent = Some pc).
Proof.
  intros Hp. unfold ast_append_attribute; simpl. rewrite Hp; simpl.
  split; [|split].
  - intros -> fuel. by rewrite append_loop_null.
  - intros l w cw Hc Hw fuel Hf.
    rewrite (append_loop_chain h w l _ fuel Hc Hf); simpl.
    unfold store_next; simpl. by rewrite Hw.
  - intros fuel h'.
    destruct (append_loop fuel h (next pc)) as [q| | |] eqn:Hloop;
      simpl; try discriminate.
    destruct (append_loop_ok _ _ _ _ Hloop) as [w [cw [-> [Hw Hn]]]].
    unfold store_next; simpl. rewrite Hw; simpl. intros [= <-].
    assert (Hnext : next pc ≠ NULL).
    { intros Hnull. rewrite Hnull, append_loop_null in Hloop.
      discriminate. }
    split; [done|].
    rewrite lookup_insert_ne; [done|].
    intros ->. congruence.
Qed.

(** A parent at address 1 alone (its [next] null): the call faults.  A
    parent followed by the attributes at 2 and 3: [toadd] is stored in the
    [next] of 3, and the parent still points to 2. *)
Lemma append_attribute_starts_after_parent_witness :
  let lone : gmap addr ast_node_attributes :=
    <[1%positive := ast_new_attributes NULL NULL]> ∅ in
  let three : gmap addr ast_node_attributes :=
    <[1%positive := mk_attr NULL NULL (Some 2%positive)]>
      (<[2%positive := mk_attr NULL NULL (Some 3%positive)]>
         (<[3%positive := mk_attr NULL NULL NULL]> ∅)) in
  ast_append_attribute 5 lone (Some 1%positive) (Some 9%positive) = Fault
  ∧ ast_append_attribute 1 three (Some 1%positive) (Some 9%positive)
    = Ok (<[3%positive := mk_attr NULL NULL (Some 9%positive)]> three).
Proof.
  intros lone three. split.
  - apply (append_attribute_starts_after_parent lone 1%positive
             (ast_new_attributes NULL NULL) (Some 9%positive));
      reflexivity.
  - apply (proj1 (proj2 (append_attribute_starts_after_parent three
                           1%positive (mk_attr NULL NULL (Some 2%positive))
                           (Some 9%positive) eq_refl))
             [2%positive] 3%positive (mk_attr NULL NULL NULL)).
    + simpl. split; [reflexivity|].
      exists (mk_attr NULL NULL (Some 3%positive)).
      split; [reflexivity|]. simpl. split; [reflexivity|].
      exists (mk_attr NULL NULL NULL). split; reflexivity.
    + reflexivity.
    + simpl. lia.
Defined.

End AttributesFacts.

(** ** The allocation list and its release *)

Module ArenaFacts.
Import Arena.

Lemma addrs_app l1 l2 : addrs (l1 ++ l2) = addrs l1 ++ addrs l2.
Proof. induction l1 as [|cd l1 IH]; simpl; [done|]. by rewrite IH. Qed.

Lemma elem_of_addrs_snd l d : d ∈ l.*2 → d ∈ addrs l.
Proof.
  induction l as [|cd l IH]; simpl; [done|].
  rewrite !elem_of_cons. intros [?|?]; auto.
Qed.

Lemma alloc_seg_frame h h' q l : ∀ p,
  (∀ a, a ∈ addrs l → h' !! a = h !! a) →
  alloc_seg h p q l → alloc_seg h' p q l.
Proof.
  induction l as [|cd l IH]; intros p Hsame; simpl; [done|].
  intros [-> [nx [Hc [[num [size Hd]] Hl]]]].
  split; [done|]. exists nx.
  rewrite (Hsame cd.1) by (simpl; set_solver).
  split; [done|]. split.
  { exists num, size. rewrite Hsame; [done|]. simpl; set_solver. }
  apply IH; [|done]. intros a Ha. apply Hsame. simpl. set_solver.
Qed.

Lemma alloc_seg_snoc h q c d l : ∀ p,
  alloc_seg h p (Some c) l →
  h !! c = Some (Cell (mk_alloc q (Some d))) →
  is_data h d →
  alloc_seg h p q (l ++ [(c, d)]).
Proof.
  induction l as [|cd l IH]; intros p; simpl.
  - intros -> Hc Hd. split; [done|]. exists q. auto.
  - intros [-> [nx [Hcd [Hdd Hl]]]] Hc Hd.
    split; [done|]. exists nx. auto.
Qed.

Lemma alloc_seg_snoc_inv h q c d l : ∀ p,
  alloc_seg h p q (l ++ [(c, d)]) →
  alloc_seg h p (Some c) l
  ∧ h !! c = Some (Cell (mk_alloc q (Some d)))
  ∧ is_data h d.
Proof.
  induction l as [|cd l IH]; intros p; simpl.
  - intros [-> [nx [Hc [Hd <-]]]]. auto.
  - intros [-> [nx [Hcd [Hdd Hl]]]].
    destruct (IH _ Hl) as [Hseg [Hc Hd]].
    split; [|auto]. split; [done|]. exists nx. auto.
Qed.

Lemma alloc_seg_live h p q l a :
  alloc_seg h p q l → a ∈ addrs l → is_Some (h !! a).
Proof.
  revert p. induction l as [|cd l IH]; intros p; simpl; [set_solver|].
  intros [-> [nx [Hc [[num [size Hd]] Hl]]]].
  rewrite !elem_of_cons. intros [->|[->|Ha]]; eauto.
Qed.

Lemma NoDup_pair (a b : addr) : a ≠ b → NoDup [a; b].
Proof.
  intros Hab. apply NoDup_cons. split; [|apply NoDup_singleton].
  by intros ?%list_elem_of_singleton.
Qed.

Lemma fresh_lookup (h : gmap addr block) : h !! fresh (dom h) = None.
Proof. apply not_elem_of_dom, is_fresh. Qed.

Lemma fresh_ne (h : gmap addr block) a :
  is_Some (h !! a) → a ≠ fresh (dom h).
Proof. intros [b Hb] ->. by rewrite fresh_lookup in Hb. Qed.

Lemma load_cell h a c : h !! a = Some (Cell c) → load h (Some a) = Ok c.
Proof. intros Ha. simpl. by rewrite Ha. Qed.

Lemma store_next_cell h a c v :
  h !! a = Some (Cell c) →
  store_next h (Some a) v = Ok (<[a := Cell (mk_alloc v (data c))]> h).
Proof. intros Ha. unfold store_next. by rewrite (load_cell _ _ _ Ha). Qed.

Lemma store_data_cell h a c v :
  h !! a = Some (Cell c) →
  store_data h (Some a) v = Ok (<[a := Cell (mk_alloc (next c) v)]> h).
Proof. intros Ha. unfold store_data. by rewrite (load_cell _ _ _ Ha). Qed.

Lemma alloc_seg_nonempty h p q x l :
  alloc_seg h p q (x :: l) → p = Some x.1.
Proof. by intros [-> _]. Qed.

(** The second half of [ast_calloc]: the block is allocated and recorded
    in the cell [walker] points to. *)
Lemma ast_calloc_record (num size : N) h hd c nx :
  h !! c = Some (Cell (mk_alloc nx NULL)) →
  let d := fresh (dom h) in
  let h4 := <[c := Cell (mk_alloc nx (Some d))]> (<[d := Data num size]> h) in
  (let '(d, h3) := calloc (Data num size) h in
   h4 ← store_data h3 (Some c) (Some d);
   w ← load h4 (Some c);
   Ok (data w, mk_state h4 hd (Some c)))
  = Ok (Some d, mk_state h4 hd (Some c)).
Proof.
  intros Hc d h4. unfold calloc. fold d.
  assert (Hdc : c ≠ d) by (apply fresh_ne; eauto).
  rewrite (store_data_cell _ c (mk_alloc nx NULL))
    by (by rewrite lookup_insert_ne).
  simpl. by rewrite lookup_insert_eq.
Qed.

Lemma ast_calloc_registered num size st l :
  registered st l →
  ∃ c d st', ast_calloc num size st = Ok (Some d, st')
             ∧ registered st' (l ++ [(c, d)]).
Proof.
  intros [Hl Hnd Hw]. destruct st as [h hd w]; simpl in *.
  destruct l as [|[wc wd] l0 _] using rev_ind.
  - simpl in Hl. subst hd.
    unfold ast_calloc; simpl.
    set (c := fresh (dom h)).
    set (h1 := <[c := Cell (mk_alloc NULL NULL)]> h).
    pose proof (ast_calloc_record num size h1 (Some c) c NULL) as Hrec.
    simpl in Hrec. rewrite Hrec by apply lookup_insert_eq. clear Hrec.
    set (d := fresh (dom h1)).
    assert (Hcd : c ≠ d).
    { apply fresh_ne. unfold h1. rewrite lookup_insert_eq. eauto. }
    exists c, d. eexists. split; [done|].
    split; simpl.
    + split; [done|]. exists NULL. rewrite lookup_insert_eq.
      split; [done|]. split; [|done].
      exists num, size.
      rewrite lookup_insert_ne by done. by rewrite lookup_insert_eq.
    + by apply NoDup_pair.
    + done.
  - rewrite last_snoc in Hw; simpl in Hw. subst w.
    destruct (alloc_seg_snoc_inv _ _ _ _ _ _ Hl) as [Hseg [Hwc Hwd]].
    assert (Hhd : ∃ a, hd = Some a).
    { destruct l0 as [|x l0]; simpl in Hl; destruct Hl as [-> _]; eauto. }
    destruct Hhd as [a ->].
    unfold ast_calloc; simpl.
    set (c := fresh (dom h)).
    set (h1 := <[c := Cell (mk_alloc NULL NULL)]> h).
    assert (Hwc_c : wc ≠ c) by (apply fresh_ne; eauto).
    rewrite (store_next_cell _ wc (mk_alloc NULL (Some wd)))
      by (unfold h1; by rewrite lookup_insert_ne).
    simpl. rewrite lookup_insert_eq. simpl.
    set (h2 := <[wc := Cell (mk_alloc (Some c) (Some wd))]> h1).
    assert (Hc2 : h2 !! c = Some (Cell (mk_alloc NULL NULL))).
    { unfold h2, h1. rewrite lookup_insert_ne by done.
      by rewrite lookup_insert_eq. }
    pose proof (ast_calloc_record num size h2 (Some a) c NULL Hc2) as Hrec.
    simpl in Hrec. rewrite Hrec. clear Hrec.
    set (d := fresh (dom h2)).
    assert (Hlive2 : ∀ b, is_Some (h !! b) → is_Some (h2 !! b)).
    { intros b Hb. unfold h2, h1.
      destruct (decide (b = wc)) as [->|?];
        [rewrite lookup_insert_eq; eauto|].
      rewrite lookup_insert_ne by done.
      destruct (decide (b = c)) as [->|?];
        [rewrite lookup_insert_eq; eauto|].
      by rewrite lookup_insert_ne. }
    assert (Hold : ∀ b, is_Some (h !! b) → b ≠ c ∧ b ≠ d).
    { intros b Hb. split; [by apply fresh_ne|].
      by apply fresh_ne, Hlive2. }
    assert (Hcd : c ≠ d) by (apply fresh_ne; eauto).
    rewrite addrs_app in Hnd. simpl in Hnd.
    apply NoDup_app in Hnd as [Hnd0 [Hdisj Hndw]].
    apply NoDup_cons in Hndw as [Hwcwd _].
    assert (Hwcwd' : wc ≠ wd).
    { intros ->. apply Hwcwd, list_elem_of_here. }
    set (h4 := <[c := Cell (mk_alloc NULL (Some d))]>
                 (<[d := Data num size]> h2)).
    assert (Hsame : ∀ b, is_Some (h !! b) → b ≠ wc → h4 !! b = h !! b).
    { intros b Hb Hbw. destruct (Hold b Hb) as [Hbc Hbd].
      unfold h4, h2, h1. by rewrite !lookup_insert_ne. }
    exists c, d. eexists. split; [done|].
    split; simpl; fold h4.
    + apply alloc_seg_snoc; [apply alloc_seg_snoc|..].
      * apply (alloc_seg_frame h); [|done].
        intros b Hb. apply Hsame.
        -- by apply (alloc_seg_live _ _ _ _ _ Hseg).
        -- intros ->. apply (Hdisj wc Hb), list_elem_of_here.
      * destruct (Hold wc) as [? ?]; [eauto|].
        unfold h4, h2. rewrite !lookup_insert_ne by done.
        by rewrite lookup_insert_eq.
      * destruct Hwd as [n [sz Hwd]]. exists n, sz.
        rewrite Hsame; [done|eauto|done].
      * unfold h4. by rewrite lookup_insert_eq.
      * exists num, size. unfold h4.
        rewrite lookup_insert_ne by done. by rewrite lookup_insert_eq.
    + rewrite !addrs_app; simpl. rewrite <- app_assoc; simpl.
      assert (Hlive : ∀ b, b ∈ addrs l0 ++ [wc; wd] → is_Some (h !! b)).
      { intros b Hb. apply (alloc_seg_live _ _ _ (l0 ++ [(wc, wd)]) _ Hl).
        by rewrite addrs_app. }
      change (addrs l0 ++ wc :: wd :: [c; d])
        with (addrs l0 ++ [wc; wd] ++ [c; d]).
      rewrite app_assoc. apply NoDup_app. split; [|split].
      * apply NoDup_app. split; [done|]. split; [done|].
        by apply NoDup_pair.
      * intros b Hb Hcdb. destruct (Hold b (Hlive b Hb)) as [Hbc Hbd].
        apply elem_of_cons in Hcdb as [->|Hcdb]; [done|].
        by apply list_elem_of_singleton in Hcdb as ->.
      * by apply NoDup_pair.
    + by rewrite last_snoc.
Qed.

Lemma init_registered : registered init [].
Proof. split; simpl; [done| |done]. apply NoDup_nil_2. Qed.

(** A session served from a state with [l] registered returns one new
    block per request and registers them after [l], in order. *)
Lemma session_registered reqs : ∀ st l,
  registered st l →
  ∃ l' st', session reqs st = Ok (Some <$> l'.*2, st')
            ∧ length l' = length reqs
            ∧ registered st' (l ++ l').
Proof.
  induction reqs as [|[num size] reqs IH]; intros st l Hreg; simpl.
  - exists [], st. rewrite app_nil_r. done.
  - destruct (ast_calloc_registered num size st l Hreg)
      as [c [d [st1 [-> Hreg1]]]]; simpl.
    destruct (IH st1 _ Hreg1) as [l' [st2 [-> [Hlen Hreg2]]]]; simpl.
    exists ((c, d) :: l'), st2. simpl.
    split; [done|]. split; [by rewrite Hlen|].
    by rewrite <- app_assoc in Hreg2.
Qed.

Lemma release_cons cd l h :
  release (cd :: l) h = release l (delete cd.1 (delete cd.2 h)).
Proof. reflexivity. Qed.

Lemma release_keeps_freed l : ∀ h a,
  h !! a = None → release l h !! a = None.
Proof.
  induction l as [|cd l IH]; intros h a Ha; [done|].
  rewrite release_cons. apply IH.
  rewrite !lookup_delete. by repeat case_decide.
Qed.

Lemma lookup_release_in l : ∀ h a,
  a ∈ addrs l → release l h !! a = None.
Proof.
  induction l as [|cd l IH]; intros h a; cbn [addrs].
  - intros Ha. by apply elem_of_nil in Ha.
  - rewrite release_cons, !elem_of_cons. intros [->|[->|Ha]].
    + apply release_keeps_freed, lookup_delete_eq.
    + apply release_keeps_freed.
      rewrite !lookup_delete. by repeat case_decide.
    + by apply IH.
Qed.

Lemma lookup_release_out l : ∀ h a,
  a ∉ addrs l → release l h !! a = h !! a.
Proof.
  induction l as [|cd l IH]; intros h a; cbn [addrs]; [done|].
  rewrite release_cons. intros Ha.
  rewrite IH by (intros Hin; apply Ha; by do 2 apply list_elem_of_further).
  rewrite !lookup_delete_ne; [done|..].
  - intros <-. apply Ha. apply list_elem_of_further, list_elem_of_here.
  - intros <-. apply Ha. apply list_elem_of_here.
Qed.

(** The loop of [ast_free_all] over a well-formed list: it frees the cells
    and blocks in front of the last cell and stops there, with the last
    cell and its block untouched. *)
Lemma free_loop_stops_at_last l : ∀ x h w fuel,
  alloc_seg h (Some x.1) NULL (x :: l) →
  NoDup (addrs (x :: l)) →
  length l ≤ fuel →
  ∃ w', free_loop fuel (mk_state h (Some x.1) w)
        = Ok (mk_state (release (removelast (x :: l)) h)
                (fst <$> last (x :: l)) w').
Proof.
  induction l as [|y l IH]; intros x h w fuel Hseg Hnd Hfuel.
  - destruct Hseg as [_ [nx [Hc [Hd Hnx]]]]. simpl in Hnx. subst nx.
    exists w. destruct fuel; simpl; by rewrite Hc.
  - destruct Hseg as [_ [nx [Hc [[num [size Hd]] Hrest]]]].
    pose proof (alloc_seg_nonempty _ _ _ _ _ Hrest) as ->.
    destruct fuel as [|fuel]; [simpl in Hfuel; lia|].
    simpl in Hnd.
    apply NoDup_cons in Hnd as [Hx1 Hnd].
    apply NoDup_cons in Hnd as [Hx2 Hnd].
    assert (Hx12 : x.1 ≠ x.2).
    { intros Heq. apply Hx1. rewrite Heq. apply list_elem_of_here. }
    cbn [free_loop]. simpl. rewrite Hc; simpl.
    rewrite decide_True by (rewrite Hd; eauto).
    simpl.
    rewrite decide_True by (rewrite lookup_delete_ne by done; rewrite Hc; eauto).
    simpl.
    destruct (IH y (delete x.1 (delete x.2 h)) (Some x.1) fuel)
      as [w' Hloop].
    + apply (alloc_seg_frame h); [|done].
      intros a Ha.
      rewrite !lookup_delete_ne; [done|..].
      * intros <-. apply Hx2. exact Ha.
      * intros <-. apply Hx1. by apply list_elem_of_further.
    + done.
    + simpl in Hfuel. lia.
    + exists w'. exact Hloop.
Qed.


(** Whenever [ast_free_all] returns with something allocated, both
    bookkeeping pointers are null. *)
Lemma ast_free_all_resets fuel st st' :
  ast_free_all fuel st = Ok st' → head st ≠ NULL →
  head st' = NULL ∧ walker st' = NULL.
Proof.
  unfold ast_free_all. destruct (head st); [|done].
  destruct (free_loop fuel st); simpl; try discriminate.
  by intros [= <-] _.
Qed.

(** With [head] null, [ast_calloc] starts a new list of one cell. *)
Lemma ast_calloc_starts_new_list num size st :
  head st = NULL →
  ∃ c d st', ast_calloc num size st = Ok (Some d, st')
             ∧ head st' = Some c ∧ walker st' = Some c
             ∧ heap st' !! c = Some (Cell (mk_alloc NULL (Some d)))
             ∧ heap st' !! d = Some (Data num size)
             ∧ heap st !! c = None ∧ heap st !! d = None.
Proof.
  intros Hh. destruct st as [h hd w]; simpl in *. subst hd.
  unfold ast_calloc; simpl.
  set (c := fresh (dom h)).
  set (h1 := <[c := Cell (mk_alloc NULL NULL)]> h).
  pose proof (ast_calloc_record num size h1 (Some c) c NULL) as Hrec.
  simpl in Hrec. rewrite Hrec by apply lookup_insert_eq. clear Hrec.
  set (d := fresh (dom h1)).
  assert (Hcd : c ≠ d).
  { apply fresh_ne. unfold h1. rewrite lookup_insert_eq. eauto. }
  exists c, d. eexists. split; [done|]. simpl.
  split; [done|]. split; [done|].
  split; [by rewrite lookup_insert_eq|].
  split; [rewrite lookup_insert_ne by done; by rewrite lookup_insert_eq|].
  split; [apply fresh_lookup|].
  pose proof (fresh_lookup h1) as Hd. fold d in Hd. unfold h1 in Hd.
  by rewrite lookup_insert_ne in Hd.
Qed.

(** [ast_free_all] over the list that registers [l0] and then [(c, d)]:
    everything of [l0] is freed, the cell [c] and the block [d] are
    not. *)
Lemma ast_free_all_registered st l0 c d :
  registered st (l0 ++ [(c, d)]) →
  ast_free_all (length l0) st
  = Ok (mk_state (release l0 (heap st)) NULL NULL).
Proof.
  intros [Hl Hnd _]. destruct st as [h hd w]; simpl in *.
  destruct (l0 ++ [(c, d)]) as [|x l] eqn:Hx.
  { by destruct l0. }
  pose proof (alloc_seg_nonempty _ _ _ _ _ Hl) as ->.
  assert (Hlen : length l = length l0).
  { apply (f_equal length) in Hx. rewrite length_app in Hx.
    simpl in Hx. lia. }
  destruct (free_loop_stops_at_last l x h w (length l0) Hl Hnd)
    as [w' Hloop]; [lia|].
  assert (Hr : removelast (x :: l) = l0)
    by (rewrite <- Hx; apply removelast_last).
  rewrite Hr in Hloop.
  unfold ast_free_all; simpl. by rewrite Hloop.
Qed.

(** C3.  Arena bulk release fails on the last block.  For every session
    of one or more [ast_calloc] calls from program start, the calls return
    their blocks, and [ast_free_all] then returns with [head] and [walker]
    null and every block but the last freed; the block of the last call
    (and the cell that registers it) is still allocated, and no pointer of
    the arena leads to it any more. *)
Theorem ast_free_all_keeps_last_block (reqs : list (N * N)) (num size : N) :
  ∃ ps p st st',
    session (reqs ++ [(num, size)]) init = Ok (ps ++ [p], st)
    ∧ ast_free_all (length reqs) st = Ok st'
    ∧ head st' = NULL ∧ walker st' = NULL
    ∧ Forall (λ q, ¬ live q st') ps
    ∧ live p st'.
Proof.
  destruct (session_registered (reqs ++ [(num, size)]) init []
              init_registered) as [l [st [Hs [Hlen Hreg]]]].
  simpl in Hreg.
  destruct l as [|[c d] l0 _] using rev_ind.
  { rewrite length_app in Hlen. simpl in Hlen. lia. }
  assert (Hlen0 : length l0 = length reqs).
  { rewrite !length_app in Hlen. simpl in Hlen. lia. }
  exists (Some <$> l0.*2), (Some d), st. eexists.
  split; [by rewrite Hs, !fmap_app|].
  rewrite <- Hlen0.
  split; [by apply ast_free_all_registered with c d|].
  split; [done|]. split; [done|].
  destruct Hreg as [Hl Hnd _].
  rewrite addrs_app in Hnd. apply NoDup_app in Hnd as [_ [Hdisj _]].
  split.
  - apply Forall_fmap, Forall_forall. intros q Hq. simpl.
    rewrite lookup_release_in by by apply elem_of_addrs_snd.
    by intros [? ?].
  - simpl. rewrite lookup_release_out.
    + apply (alloc_seg_live _ _ _ _ _ Hl). rewrite addrs_app.
      apply elem_of_app. right. simpl.
      apply list_elem_of_further, list_elem_of_here.
    + intros Hin. apply (Hdisj d Hin). simpl.
      apply list_elem_of_further, list_elem_of_here.
Qed.

(** One [ast_calloc(1, 8)] from program start, then [ast_free_all]: the
    pointers are reset and nothing has been freed. *)
Example ast_free_all_single_block :
  ∃ st, session [(1%N, 8%N)] init = Ok ([Some 2%positive], st)
        ∧ ast_free_all 0 st = Ok (mk_state (heap st) NULL NULL)
        ∧ heap st !! 2%positive = Some (Data 1 8)
        ∧ heap st !! 1%positive
          = Some (Cell (mk_alloc NULL (Some 2%positive))).
Proof. eexists. repeat split; vm_compute; reflexivity. Qed.

End ArenaFacts.

(** * Further properties *)

(** ** Any number of extensions *)

Module ExtensionsFacts.
Import Concatenation IfElse Extensions.




Lemma extend_many_statements calls : ∀ chain,
  conditional_statements (extend_many chain calls)
  = conditional_statements chain ++ concat (added <$> calls).
Proof.
  induction calls as [|ns calls IH]; intros chain; simpl.
  - by rewrite app_nil_r.
  - rewrite IH. destruct ns as [l|]; simpl; [|done].
    unfold AstList.ast_list_concat. by rewrite <- app_assoc.
Qed.

Lemma extend_many_else calls : ∀ chain,
  else_condition (extend_many chain calls) = else_condition chain.
Proof.
  induction calls as [|ns calls IH]; intros chain; simpl; [done|].
  rewrite IH. by destruct ns.
Qed.

(** X2.  Any number of [ast_extend_if_else] calls on a new chain
    leave the first condition first, followed by the supplied lists in call
    order, a null list adding nothing; the else body stays the
    constructor's. *)
Theorem if_else_extensions_append (c1 else_body : pointer)
    (calls : list list_pointer) :
  conditional_statements (extend_many (ast_new_if_else c1 else_body) calls)
    = c1 :: concat (added <$> calls)
  ∧ else_condition (extend_many (ast_new_if_else c1 else_body) calls)
    = else_body.
Proof.
  rewrite extend_many_statements, extend_many_else. done.
Qed.

End ExtensionsFacts.

(** ** Loop statements *)

Module LoopFacts.
Import Loop.

(** X3.  Whichever of the four loop constructors built a loop
    statement: it has an initial or a modify assignment only if it is a
    for loop, and it has a condition only if it is not a forever loop. *)
Theorem loop_members_follow_type (l : ast_loop_statement) :
  constructed l →
  (initial l ≠ NULL ∨ modify l ≠ NULL → type l = LOOP_FOR)
  ∧ (condition l ≠ NULL → type l ≠ LOOP_FOREVER).
Proof.
  intros [s|s i m c|s c|s c]; simpl; split; try done;
    intros [?|?]; done.
Qed.

Lemma loop_members_follow_type_witness :
  (initial (ast_new_while_loop_statement (Some 1%positive) (Some 2%positive))
     ≠ NULL
   ∨ modify (ast_new_while_loop_statement (Some 1%positive) (Some 2%positive))
     ≠ NULL →
   type (ast_new_while_loop_statement (Some 1%positive) (Some 2%positive))
   = LOOP_FOR)
  ∧ (condition
       (ast_new_while_loop_statement (Some 1%positive) (Some 2%positive))
     ≠ NULL →
     type (ast_new_while_loop_statement (Some 1%positive) (Some 2%positive))
     ≠ LOOP_FOREVER).
Proof.
  apply (loop_members_follow_type
           (ast_new_while_loop_statement (Some 1%positive) (Some 2%positive))).
  apply by_while.
Defined.

End LoopFacts.

(** ** Timing control statements *)

Module TimingControlFacts.
Import TimingControl.

Lemma timing_delay_spec t s d :
  ast_new_timing_control_statement_delay t s d
  = if decide (t = TIMING_CTRL_DELAY_CONTROL)
    then Ok (mk_timing_control_statement t (delay d) s NULL)
    else AssertionFailed.
Proof. destruct t; reflexivity. Qed.

Lemma timing_event_spec t r s e :
  ast_new_timing_control_statement_event t r s e
  = if decide (t = TIMING_CTRL_EVENT_CONTROL
               ∨ t = TIMING_CTRL_EVENT_CONTROL_REPEAT)
    then Ok (mk_timing_control_statement t (event_ctrl e) s r)
    else AssertionFailed.
Proof. destruct t; reflexivity. Qed.

(** X4.  The two timing-control constructors split the type tags:
    no tag is accepted by both; a returned statement holds a delay control
    exactly when its tag is the delay one, and then has no repeat
    expression; and a tag that is neither the delay tag nor one of the two
    event tags is refused by both. *)
Theorem timing_control_tags_split (t : ast_timing_control_statement_type)
    (r s d e : pointer) :
  (∀ n1 n2, ast_new_timing_control_statement_delay t s d = Ok n1 →
            ast_new_timing_control_statement_event t r s e = Ok n2 → False)
  ∧ (∀ n, ast_new_timing_control_statement_delay t s d = Ok n
          ∨ ast_new_timing_control_statement_event t r s e = Ok n →
          (type n = TIMING_CTRL_DELAY_CONTROL ↔ control n = delay d)
          ∧ type n = t
          ∧ statement n = s
          ∧ (type n = TIMING_CTRL_DELAY_CONTROL → repeat n = NULL))
  ∧ (t ≠ TIMING_CTRL_DELAY_CONTROL → t ≠ TIMING_CTRL_EVENT_CONTROL →
     t ≠ TIMING_CTRL_EVENT_CONTROL_REPEAT →
     ast_new_timing_control_statement_delay t s d = AssertionFailed
     ∧ ast_new_timing_control_statement_event t r s e = AssertionFailed).
Proof.
  rewrite timing_delay_spec, timing_event_spec.
  split; [|split].
  - intros n1 n2. repeat case_decide; try discriminate.
    subst t. destruct H0; discriminate.
  - intros n [Hn|Hn]; case_decide; try discriminate;
      injection Hn as <-; simpl.
    + done.
    + repeat split; try done; intros Ht; subst t; destruct H; discriminate.
  - intros H1 H2 H3. rewrite !decide_False; [done| |done].
    intros [?|?]; done.
Qed.

Lemma timing_control_tags_split_witness :
  ast_new_timing_control_statement_delay (TIMING_CTRL_OTHER 7)
    (Some 1%positive) (Some 2%positive) = AssertionFailed
  ∧ ast_new_timing_control_statement_event (TIMING_CTRL_OTHER 7)
      (Some 3%positive) (Some 1%positive) (Some 4%positive) = AssertionFailed.
Proof.
  apply (timing_control_tags_split (TIMING_CTRL_OTHER 7) (Some 3%positive)
           (Some 1%positive) (Some 2%positive) (Some 4%positive));
    discriminate.
Defined.

End TimingControlFacts.

(** ** Switch gates *)

Module SwitchGateFacts.
Import SwitchGate.

Section Delays.
Context {ast_delay3 ast_delay2 : Type}.

Lemma switch_gate_d3_spec t (d : ast_delay3) :
  ast_new_switch_gate_d3 (ast_delay2 := ast_delay2) t d
  = if decide (bidirectional t) then AssertionFailed
    else Ok (mk_switch_gate t (delay3 d)).
Proof. destruct t; reflexivity. Qed.

Lemma switch_gate_d2_spec t (d : ast_delay2) :
  ast_new_switch_gate_d2 (ast_delay3 := ast_delay3) t d
  = if decide (bidirectional t) then Ok (mk_switch_gate t (delay2 d))
    else AssertionFailed.
Proof. destruct t; reflexivity. Qed.

(** X5.  The two switch-gate constructors partition the switch
    types: for every type exactly one of them returns and the other stops
    at its assertion; the three-value delay goes with every type except the
    two bidirectional pass switches, the two-value delay with those two;
    the node returned carries the supplied type and delay. *)
Theorem switch_gate_constructors_partition (t : ast_switchtype)
    (d3 : ast_delay3) (d2 : ast_delay2) :
  (ast_new_switch_gate_d3 (ast_delay2 := ast_delay2) t d3
     = Ok (mk_switch_gate t (delay3 d3))
   ∧ ast_new_switch_gate_d2 (ast_delay3 := ast_delay3) t d2
     = AssertionFailed
   ∧ t ≠ SWITCH_TRAN ∧ t ≠ SWITCH_RTRAN)
  ∨ (ast_new_switch_gate_d3 (ast_delay2 := ast_delay2) t d3
       = AssertionFailed
     ∧ ast_new_switch_gate_d2 (ast_delay3 := ast_delay3) t d2
       = Ok (mk_switch_gate t (delay2 d2))
     ∧ (t = SWITCH_TRAN ∨ t = SWITCH_RTRAN)).
Proof.
  rewrite switch_gate_d3_spec, switch_gate_d2_spec.
  destruct (decide (bidirectional t)) as [Hb|Hn].
  - right. done.
  - left. repeat split; try done; intros ->; apply Hn; [by left|by right].
Qed.

End Delays.

End SwitchGateFacts.

(** ** UDP ports *)

Module UdpPortFacts.
Import UdpPort.

Lemma new_udp_port_input id attrs reg dv :
  ast_new_udp_port PORT_INPUT id attrs reg dv = AssertionFailed.
Proof. reflexivity. Qed.

Lemma new_udp_port_other tag id attrs reg dv :
  ast_new_udp_port (PORT_OTHER tag) id attrs reg dv
  = Ok (mk_udp_port (PORT_OTHER tag) (identifier id) attrs reg dv).
Proof. reflexivity. Qed.

(** X6.  UDP ports: the single-port constructor refuses the input
    direction; so a port that either constructor returns has the input
    direction exactly when it carries the identifier list, and an input
    port is never a register and never has a default value. *)
Theorem udp_port_direction_decides_form (d : ast_port_direction)
    (id attrs attrs' dv : pointer) (reg : ast_boolean) (ids : list_pointer)
    (p : ast_udp_port) :
  ast_new_udp_port d id attrs reg dv = Ok p
  ∨ ast_new_udp_input_port ids attrs' = p →
  (direction p = PORT_INPUT ↔ names p = identifiers ids)
  ∧ (direction p ≠ PORT_INPUT ↔ names p = identifier id)
  ∧ (direction p = PORT_INPUT →
     UdpPort.reg p = AST_FALSE ∧ default_value p = NULL).
Proof.
  intros [Hp|<-].
  - destruct d as [|tag]; [discriminate|].
    rewrite new_udp_port_other in Hp. injection Hp as <-. simpl.
    repeat split; try done.
  - simpl. repeat split; try done.
Qed.

Lemma udp_port_direction_decides_form_witness :
  let p := ast_new_udp_input_port (Some [Some 5%positive]) (Some 6%positive) in
  (direction p = PORT_INPUT ↔ names p = identifiers (Some [Some 5%positive]))
  ∧ (direction p ≠ PORT_INPUT ↔ names p = identifier (Some 1%positive))
  ∧ (direction p = PORT_INPUT →
     UdpPort.reg p = AST_FALSE ∧ default_value p = NULL).
Proof.
  intros p.
  apply (udp_port_direction_decides_form PORT_INPUT (Some 1%positive)
           (Some 2%positive) (Some 6%positive) (Some 3%positive) AST_TRUE
           (Some [Some 5%positive]) p).
  right. reflexivity.
Defined.

End UdpPortFacts.

(** ** More on the cached default of a case statement *)

Module CaseScanFacts.
Import CaseStatement.

(** Whatever the list holds, a scan that returns either left the node as
    it was or cached an element of the list that is built and flagged. *)
Lemma scan_default_sound h (l : ast_list) remaining : ∀ i tr0 tr,
  scan_default h l remaining i tr0 = Ok tr →
  tr = tr0
  ∨ ∃ a item,
      tr = mk_case_statement (expression tr0) (cases tr0) (type tr0)
             (is_function tr0) (Some a)
      ∧ Some a ∈ l
      ∧ h !! a = Some item
      ∧ is_default item = AST_TRUE.
Proof.
  induction remaining as [|remaining IH]; intros i tr0 tr; simpl.
  - intros [= <-]. by left.
  - unfold ast_list_get.
    destruct (l !! i) as [[a|]|] eqn:Hi; simpl.
    + destruct (h !! a) as [item|] eqn:Ha; simpl; [|discriminate].
      destruct (is_default item) eqn:Hd.
      * intros [= <-]. right. exists a, item.
        split; [done|]. split; [|done].
        by apply list_elem_of_lookup_2 with i.
      * apply IH.
    + intros [= <-]. by left.
    + intros [= <-]. by left.
Qed.

(** X7.  Whatever the list of cases holds (null entries, repeated
    entries, any number of flagged items), when [ast_new_case_statement]
    returns, the node has the supplied expression, list and type, is not
    marked as part of a function, and its [default_item] is either null or
    an entry of the list that is a built case item flagged default. *)
Theorem case_default_is_sound (h : gmap addr ast_case_item)
    (e : pointer) (l : ast_list) (ty : ast_case_statement_type)
    (tr : ast_case_statement) :
  ast_new_case_statement h e (Some l) ty = Ok tr →
  expression tr = e
  ∧ cases tr = Some l
  ∧ type tr = ty
  ∧ is_function tr = AST_FALSE
  ∧ (default_item tr = NULL
     ∨ ∃ a item, default_item tr = Some a
                 ∧ Some a ∈ l
                 ∧ h !! a = Some item
                 ∧ is_default item = AST_TRUE).
Proof.
  unfold ast_new_case_statement; simpl. intros Hscan.
  destruct (scan_default_sound _ _ _ _ _ _ Hscan)
    as [->|[a [item [-> [Hin [Ha Hd]]]]]]; simpl.
  - repeat split; try done. by left.
  - repeat split; try done. right. by exists a, item.
Qed.

Lemma case_default_is_sound_witness :
  let h : gmap addr ast_case_item :=
    <[10%positive := mk_case_item None (Some 20%positive) AST_TRUE]> ∅ in
  let l := [Some 10%positive; NULL] in
  let tr := mk_case_statement (Some 1%positive) (Some l) CASEZ AST_FALSE
              (Some 10%positive) in
  expression tr = Some 1%positive
  ∧ cases tr = Some l
  ∧ type tr = CASEZ
  ∧ is_function tr = AST_FALSE
  ∧ (default_item tr = NULL
     ∨ ∃ a item, default_item tr = Some a
                 ∧ Some a ∈ l
                 ∧ h !! a = Some item
                 ∧ is_default item = AST_TRUE).
Proof.
  intros h l tr.
  apply (case_default_is_sound h (Some 1%positive) l CASEZ tr).
  reflexivity.
Defined.

Lemma get_in_front (skipped : list addr) p pre (rest : ast_list) :
  ast_list_get ((Some <$> (skipped ++ p :: pre)) ++ rest) (length skipped)
  = Some p.
Proof.
  unfold ast_list_get.
  rewrite lookup_app_l by (rewrite length_fmap, length_app; simpl; lia).
  by rewrite list_lookup_fmap, lookup_app_r, Nat.sub_diag.
Qed.

(** The scan over built, unflagged items followed by a null entry. *)
Lemma scan_default_reaches_null h pre post tr :
  Forall (flagged h false) pre →
  ∀ skipped remaining,
    length pre < remaining →
    scan_default h ((Some <$> (skipped ++ pre)) ++ NULL :: post) remaining
      (length skipped) tr
    = Ok tr.
Proof.
  intros Hpre.
  induction Hpre as [|p pre [ip [Hp Hpd]] _ IH]; intros skipped remaining Hr.
  - destruct remaining as [|remaining]; [simpl in Hr; lia|].
    cbn [scan_default]. unfold ast_list_get.
    rewrite app_nil_r, lookup_app_r by (by rewrite length_fmap).
    by rewrite length_fmap, Nat.sub_diag.
  - destruct remaining as [|remaining]; [simpl in Hr; lia|].
    cbn [scan_default]. rewrite !get_in_front.
    simpl. rewrite Hp. simpl. rewrite Hpd.
    specialize (IH (skipped ++ [p]) remaining).
    rewrite length_app, Nat.add_1_r, <- app_assoc in IH.
    apply IH. simpl in Hr. lia.
Qed.

(** X8.  A null entry in the list of cases ends the scan for the
    default: when the entries in front of it are built and not flagged,
    [default_item] is null whatever follows the null entry, flagged items
    included. *)
Theorem case_default_null_entry_hides_rest (h : gmap addr ast_case_item)
    (e : pointer) (ty : ast_case_statement_type) (pre : list addr)
    (post : ast_list) :
  Forall (flagged h false) pre →
  ast_new_case_statement h e (Some ((Some <$> pre) ++ NULL :: post)) ty
  = Ok (mk_case_statement e (Some ((Some <$> pre) ++ NULL :: post)) ty
          AST_FALSE NULL).
Proof.
  intros Hpre. unfold ast_new_case_statement; simpl.
  apply (scan_default_reaches_null h pre post _ Hpre []).
  unfold AstList.items. rewrite length_app, length_fmap. simpl. lia.
Qed.

Lemma case_default_null_entry_hides_rest_witness :
  let h : gmap addr ast_case_item :=
    <[10%positive := mk_case_item None (Some 20%positive) AST_FALSE]>
      (<[11%positive := mk_case_item None (Some 21%positive) AST_TRUE]> ∅) in
  let l := [Some 10%positive; NULL; Some 11%positive] in
  ast_new_case_statement h NULL (Some l) CASE
  = Ok (mk_case_statement NULL (Some l) CASE AST_FALSE NULL).
Proof.
  intros h l.
  apply (case_default_null_entry_hides_rest h NULL CASE [10%positive]
           [Some 11%positive]).
  constructor; [|constructor].
  exists (mk_case_item None (Some 20%positive) AST_FALSE).
  split; reflexivity.
Defined.

End CaseScanFacts.

(** ** More on appending to an attribute list *)

Module AttributesChainFacts.
Import Attributes.

(** X9.  Whenever [ast_append_attribute] returns, the attributes
    after the call differ from those before in exactly one attribute: one
    whose [next] was null, and whose [next] is now [toadd].  No attribute
    is added or removed, no name or value changes, and no link that was
    already set is overwritten. *)
Theorem append_attribute_fills_one_null_next (fuel : nat)
    (h h' : gmap addr ast_node_attributes) (parent toadd : pointer) :
  ast_append_attribute fuel h parent toadd = Ok h' →
  (∃ w cw, h !! w = Some cw
           ∧ next cw = NULL
           ∧ h' = <[w := mk_attr (attr_name cw) (attr_value cw) toadd]> h)
  ∧ dom h' = dom h
  ∧ ∀ a c, h !! a = Some c →
      ∃ c', h' !! a = Some c'
            ∧ attr_name c' = attr_name c
            ∧ attr_value c' = attr_value c
            ∧ (next c ≠ NULL → c' = c).
Proof.
  unfold ast_append_attribute. intros Hrun.
  destruct (deref h parent) as [pc| | |] eqn:Hp; simpl in Hrun;
    try discriminate.
  destruct (append_loop fuel h (next pc)) as [q| | |] eqn:Hloop;
    simpl in Hrun; try discriminate.
  destruct (AttributesFacts.append_loop_ok _ _ _ _ Hloop)
    as [w [cw [-> [Hw Hn]]]].
  unfold store_next in Hrun; simpl in Hrun. rewrite Hw in Hrun.
  simpl in Hrun. injection Hrun as <-.
  split; [by exists w, cw|]. split.
  - rewrite dom_insert_L.
    assert (w ∈ dom h) by (apply elem_of_dom; eauto).
    apply set_eq. intros x. rewrite elem_of_union, elem_of_singleton.
    split; [intros [->|?]; done|auto].
  - intros a c Ha. destruct (decide (a = w)) as [->|Hne].
    + rewrite lookup_insert_eq. eexists. split; [done|]. simpl.
      assert (c = cw) as -> by congruence.
      repeat split; done.
    + rewrite lookup_insert_ne by done. by exists c.
Qed.

Lemma append_attribute_fills_one_null_next_witness :
  let h : gmap addr ast_node_attributes :=
    <[1%positive := mk_attr (Some 11%positive) NULL (Some 2%positive)]>
      (<[2%positive := mk_attr (Some 12%positive) NULL NULL]> ∅) in
  let h' : gmap addr ast_node_attributes :=
    <[2%positive := mk_attr (Some 12%positive) NULL (Some 3%positive)]> h in
  (∃ w cw, h !! w = Some cw
           ∧ next cw = NULL
           ∧ h' = <[w := mk_attr (attr_name cw) (attr_value cw)
                            (Some 3%positive)]> h)
  ∧ dom h' = dom h
  ∧ ∀ a c, h !! a = Some c →
      ∃ c', h' !! a = Some c'
            ∧ attr_name c' = attr_name c
            ∧ attr_value c' = attr_value c
            ∧ (next c ≠ NULL → c' = c).
Proof.
  intros h h'.
  apply (append_attribute_fills_one_null_next 0 h h' (Some 1%positive)
           (Some 3%positive)).
  reflexivity.
Defined.

Lemma chain_last h w : ∀ l p,
  chain h p (l ++ [w]) → ∃ cw, h !! w = Some cw ∧ next cw = NULL.
Proof.
  induction l as [|a l IH]; intros p; simpl.
  - intros [_ [c [Hw Hn]]]. eauto.
  - intros [_ [c [_ Hc]]]. by apply IH with (next c).
Qed.

Lemma chain_inner h w : ∀ l p a,
  chain h p (l ++ [w]) → a ∈ l → ∃ c, h !! a = Some c ∧ next c ≠ NULL.
Proof.
  induction l as [|x l IH]; intros p a; simpl.
  - intros _ Ha. by apply elem_of_nil in Ha.
  - intros [_ [c [Hx Hc]]] Ha. apply elem_of_cons in Ha as [->|Ha].
    + exists c. split; [done|]. intros Hn. rewrite Hn in Hc.
      destruct l; simpl in Hc; by destruct Hc.
    + by apply IH with (next c).
Qed.

(** The last attribute of a chain occurs nowhere before: a chain does not
    loop. *)
Lemma chain_last_notin h w l p : chain h p (l ++ [w]) → w ∉ l.
Proof.
  intros Hc Hin.
  destruct (chain_last _ _ _ _ Hc) as [cw [Hw Hn]].
  destruct (chain_inner _ _ _ _ _ Hc Hin) as [c [Hw' Hc']].
  congruence.
Qed.

Lemma chain_update h w c' : ∀ l p,
  w ∉ l → chain h p l → chain (<[w := c']> h) p l.
Proof.
  induction l as [|a l IH]; intros p Hw; simpl; [done|].
  intros [-> [c [Ha Hc]]]. split; [done|]. exists c.
  apply not_elem_of_cons in Hw as [Hwa Hwl].
  rewrite lookup_insert_ne by done. split; [done|]. by apply IH.
Qed.

Lemma chain_append h w c' lt : ∀ l p,
  chain h p (l ++ [w]) → w ∉ lt → chain h (next c') lt →
  chain (<[w := c']> h) p (l ++ w :: lt).
Proof.
  intros l p Hc Hlt Ht.
  pose proof (chain_last_notin _ _ _ _ Hc) as Hl.
  revert p Hc Hl. induction l as [|a l IH]; intros p; simpl.
  - intros [-> _] _. split; [done|]. exists c'.
    rewrite lookup_insert_eq. split; [done|]. by apply chain_update.
  - intros [-> [c [Ha Hc]]] Hl.
    apply not_elem_of_cons in Hl as [Hwa Hwl].
    split; [done|]. exists c. rewrite lookup_insert_ne by done.
    split; [done|]. by apply IH.
Qed.

(** X10.  Appending keeps the order: when the chain from
    [parent -> next] lists the attributes [l] and then [w], and the chain
    from [toadd] lists [lt] without reaching [w], the call returns (given
    one unit of fuel per attribute of [l]) and the chain from
    [parent -> next] then lists [l], [w] and [lt] in that order. *)
Theorem append_attribute_appends (h : gmap addr ast_node_attributes)
    (parent : addr) (pc : ast_node_attributes) (toadd : pointer)
    (l lt : list addr) (w : addr) (fuel : nat) :
  h !! parent = Some pc →
  chain h (next pc) (l ++ [w]) →
  chain h toadd lt →
  w ∉ lt →
  length l ≤ fuel →
  ∃ h', ast_append_attribute fuel h (Some parent) toadd = Ok h'
        ∧ h' !! parent = Some pc
        ∧ chain h' (next pc) (l ++ w :: lt).
Proof.
  intros Hp Hc Ht Hw Hf.
  destruct (chain_last _ _ _ _ Hc) as [cw [Hcw Hn]].
  unfold ast_append_attribute; simpl. rewrite Hp; simpl.
  rewrite (AttributesFacts.append_loop_chain h w l _ fuel Hc Hf); simpl.
  unfold store_next; simpl. rewrite Hcw; simpl.
  eexists. split; [done|].
  assert (Hne : w ≠ parent).
  { intros ->. assert (pc = cw) as -> by congruence.
    rewrite Hn in Hc. destruct l; simpl in Hc; by destruct Hc. }
  split; [by rewrite lookup_insert_ne|].
  by apply chain_append.
Qed.

Lemma append_attribute_appends_witness :
  let h : gmap addr ast_node_attributes :=
    <[1%positive := mk_attr NULL NULL (Some 2%positive)]>
      (<[2%positive := mk_attr NULL NULL (Some 3%positive)]>
         (<[3%positive := mk_attr NULL NULL NULL]>
            (<[4%positive := mk_attr NULL NULL (Some 5%positive)]>
               (<[5%positive := mk_attr NULL NULL NULL]> ∅)))) in
  ∃ h', ast_append_attribute 1 h (Some 1%positive) (Some 4%positive) = Ok h'
        ∧ h' !! 1%positive = Some (mk_attr NULL NULL (Some 2%positive))
        ∧ chain h' (Some 2%positive)
            [2%positive; 3%positive; 4%positive; 5%positive].
Proof.
  intros h.
  apply (append_attribute_appends h 1%positive
           (mk_attr NULL NULL (Some 2%positive)) (Some 4%positive)
           [2%positive] [4%positive; 5%positive] 3%positive 1).
  - reflexivity.
  - simpl. split; [reflexivity|]. eexists. split; [reflexivity|].
    simpl. split; [reflexivity|]. eexists. split; reflexivity.
  - simpl. split; [reflexivity|]. eexists. split; [reflexivity|].
    simpl. split; [reflexivity|]. eexists. split; reflexivity.
  - intros Hin. apply elem_of_cons in Hin as [Heq|Hin]; [discriminate|].
    apply elem_of_cons in Hin as [Heq|Hin]; [discriminate|].
    by apply elem_of_nil in Hin.
  - simpl. lia.
Defined.

End AttributesChainFacts.

(** ** Sessions of the arena *)

Module ArenaSessionFacts.
Import Arena ArenaFacts.




(** [ast_free_all] on a well-formed list, with enough fuel: everything in
    front of the last cell is released and both pointers are reset. *)
Lemma ast_free_all_release st l fuel :
  registered st l →
  length l ≤ S fuel →
  ast_free_all fuel st
  = Ok (mk_state (release (removelast l) (heap st)) NULL NULL).
Proof.
  intros Hreg Hfuel. destruct l as [|x l].
  - destruct Hreg as [Hl _ Hw]. destruct st as [h hd w]; simpl in *.
    by subst.
  - destruct Hreg as [Hl Hnd _]. destruct st as [h hd w]; simpl in Hl.
    destruct Hl as [-> Hl'].
    destruct (free_loop_stops_at_last l x h w fuel) as [w' Hloop].
    + split; [done|exact Hl'].
    + done.
    + simpl in Hfuel. lia.
    + unfold ast_free_all. cbn [head]. by rewrite Hloop.
Qed.



End ArenaSessionFacts.

(** ** What a release leaves alone, and what it frees twice *)

Module ArenaFrameFacts.
Import Arena ArenaFacts ArenaSessionFacts.

(** [ast_calloc] allocates two new addresses and, of what was there
    before, changes at most the cell [walker] points to. *)
Lemma ast_calloc_frame num size st p st' :
  ast_calloc num size st = Ok (p, st') →
  ∃ c d, p = Some d
         ∧ walker st' = Some c
         ∧ heap st !! c = None
         ∧ heap st !! d = None
         ∧ ∀ b, Some b ≠ walker st → is_Some (heap st !! b) →
                heap st' !! b = heap st !! b.
Proof.
  destruct st as [h hd w]. unfold ast_calloc; simpl.
  set (c := fresh (dom h)).
  set (h1 := <[c := Cell (mk_alloc NULL NULL)]> h).
  assert (Hc : h !! c = None) by apply fresh_lookup.
  assert (Hlive1 : ∀ b, is_Some (h !! b) → b ≠ c).
  { intros b Hb. by apply fresh_ne. }
  destruct hd as [a|]; simpl.
  - destruct w as [wc|]; [|discriminate].
    unfold store_next; simpl.
    destruct (h1 !! wc) as [[cw|]|] eqn:Hwc; simpl; try discriminate.
    rewrite lookup_insert_eq; simpl.
    set (h2 := <[wc := Cell (mk_alloc (Some c) (data cw))]> h1).
    set (d := fresh (dom h2)).
    assert (Hc2 : ∃ cc, h2 !! c = Some (Cell cc)).
    { unfold h2. destruct (decide (wc = c)) as [->|Hne].
      - rewrite lookup_insert_eq. eauto.
      - rewrite lookup_insert_ne by done. unfold h1.
        rewrite lookup_insert_eq. eauto. }
    destruct Hc2 as [cc Hcc].
    assert (Hcd : c ≠ d) by (apply fresh_ne; eauto).
    rewrite (store_data_cell _ c cc) by (by rewrite lookup_insert_ne).
    simpl. rewrite lookup_insert_eq. simpl.
    intros [= Hp Hst]. subst p st'. simpl.
    assert (Hlive2 : ∀ b, is_Some (h !! b) → b ≠ d).
    { intros b Hb. apply fresh_ne. unfold h2, h1.
      destruct (decide (wc = b)) as [->|?];
        [rewrite lookup_insert_eq; eauto|].
      rewrite lookup_insert_ne by done.
      rewrite lookup_insert_ne; [done|].
      intros ->. by rewrite Hc in Hb; destruct Hb. }
    exists c, d. split; [done|]. split; [done|]. split; [done|].
    split.
    + pose proof (fresh_lookup h2) as Hd. fold d in Hd.
      unfold h2, h1 in Hd.
      destruct (decide (wc = d)) as [Heq|?].
      { rewrite lookup_insert in Hd. by rewrite decide_True in Hd. }
      rewrite lookup_insert_ne in Hd by done.
      rewrite lookup_insert_ne in Hd; [done|].
      intros Heq. rewrite lookup_insert in Hd.
      by rewrite decide_True in Hd.
    + intros b Hbw Hb. unfold h2, h1.
      rewrite !lookup_insert_ne; [done|..].
      * intros ->. by apply (Hlive1 b).
      * congruence.
      * intros ->. by apply (Hlive2 b).
      * intros ->. by apply (Hlive1 b).
  - pose proof (ast_calloc_record num size h1 (Some c) c NULL) as Hrec.
    simpl in Hrec. rewrite Hrec by apply lookup_insert_eq. clear Hrec.
    set (d := fresh (dom h1)).
    intros [= Hp Hst]. subst p st'. simpl.
    exists c, d. split; [done|]. split; [done|]. split; [done|].
    pose proof (fresh_lookup h1) as Hd. fold d in Hd. unfold h1 in Hd.
    assert (Hdc : c ≠ d).
    { intros Heq. rewrite <- Heq in Hd. by rewrite lookup_insert_eq in Hd. }
    rewrite lookup_insert_ne in Hd by done.
    split; [done|].
    intros b _ Hb. unfold h1.
    rewrite !lookup_insert_ne; [done|..].
    + intros ->. by apply (Hlive1 b).
    + intros Heq. rewrite <- Heq, Hd in Hb. by destruct Hb.
    + intros ->. by apply (Hlive1 b).
Qed.

Import PlainNodes.

Lemma ast_calloc_outside num size st l a :
  registered st l → outside st l a →
  ∃ c d st', ast_calloc num size st = Ok (Some d, st')
             ∧ registered st' (l ++ [(c, d)])
             ∧ outside st' (l ++ [(c, d)]) a.
Proof.
  intros Hreg [Hnotin Hlive].
  destruct (ast_calloc_registered num size st l Hreg)
    as [c [d [st' [Hcall Hreg']]]].
  exists c, d, st'. split; [done|]. split; [done|].
  destruct (ast_calloc_frame _ _ _ _ _ Hcall)
    as [c' [d' [Hd [Hw [Hc0 [Hd0 Hframe]]]]]].
  injection Hd as <-.
  assert (c' = c) as ->.
  { destruct Hreg' as [_ _ Hw']. rewrite last_snoc in Hw'.
    simpl in Hw'. congruence. }
  split.
  - rewrite addrs_app. simpl. intros Hin.
    apply elem_of_app in Hin as [Hin|Hin]; [done|].
    apply elem_of_cons in Hin as [->|Hin];
      [rewrite Hc0 in Hlive; by destruct Hlive|].
    apply list_elem_of_singleton in Hin as ->.
    rewrite Hd0 in Hlive. by destruct Hlive.
  - rewrite Hframe; [done| |done].
    destruct Hreg as [_ _ Hwalker]. rewrite Hwalker.
    destruct l as [|x l] using rev_ind; [done|].
    rewrite last_snoc. simpl. intros [= ->].
    apply Hnotin. rewrite addrs_app. apply elem_of_app. right.
    apply list_elem_of_here.
Qed.

Lemma session_outside reqs a : ∀ st l,
  registered st l → outside st l a →
  ∃ l' st', session reqs st = Ok (Some <$> l'.*2, st')
            ∧ length l' = length reqs
            ∧ registered st' (l ++ l')
            ∧ outside st' (l ++ l') a.
Proof.
  induction reqs as [|[num size] reqs IH]; intros st l Hreg Hout; simpl.
  - exists [], st. by rewrite app_nil_r.
  - destruct (ast_calloc_outside num size st l a Hreg Hout)
      as [c [d [st1 [-> [Hreg1 Hout1]]]]]; simpl.
    destruct (IH st1 _ Hreg1 Hout1) as [l' [st2 [-> [Hlen [Hreg2 Hout2]]]]].
    simpl. exists ((c, d) :: l'), st2. simpl.
    split; [done|]. split; [by rewrite Hlen|].
    by rewrite <- app_assoc in Hreg2, Hout2.
Qed.

Lemma not_in_addrs_removelast l a : a ∉ addrs l → a ∉ addrs (removelast l).
Proof.
  destruct l as [|x l _] using rev_ind; [done|].
  rewrite removelast_last, addrs_app. intros Hn Hin.
  apply Hn, elem_of_app. by left.
Qed.

(** Whatever is allocated outside the allocation list is still allocated
    after [ast_free_all]. *)
Lemma ast_free_all_outside st l a fuel :
  registered st l → outside st l a → length l ≤ S fuel →
  ∃ st', ast_free_all fuel st = Ok st'
         ∧ head st' = NULL ∧ walker st' = NULL
         ∧ heap st' !! a = heap st !! a.
Proof.
  intros Hreg [Hnotin Hlive] Hfuel.
  eexists. split; [exact (ast_free_all_release st l fuel Hreg Hfuel)|].
  split; [done|]. split; [done|]. simpl.
  by apply lookup_release_out, not_in_addrs_removelast.
Qed.

Lemma plain_node_outside st l p st' :
  registered st l → plain_node st p st' →
  ∃ a, p = Some a
       ∧ heap st !! a = None
       ∧ head st' = head st ∧ walker st' = walker st
       ∧ registered st' l ∧ outside st' l a.
Proof.
  intros [Hl Hnd Hw] Hp.
  assert (Hgen : ∀ b,
    let a := fresh (dom (heap st)) in
    let st2 := mk_state (<[a := b]> (heap st)) (head st) (walker st) in
    heap st !! a = None ∧ registered st2 l ∧ outside st2 l a).
  { intros b a st2.
    assert (Ha : heap st !! a = None) by apply fresh_lookup.
    assert (Hnotin : a ∉ addrs l).
    { intros Hin. destruct (alloc_seg_live _ _ _ _ _ Hl Hin) as [? Hlive].
      congruence. }
    split; [done|]. split.
    - split; simpl; [|done|done].
      apply (alloc_seg_frame (heap st)); [|done].
      intros x Hx. apply lookup_insert_ne. by intros ->.
    - split; [done|]. simpl. rewrite lookup_insert_eq. eauto. }
  destruct Hp as [sz ty|sz ty sw|sz s1 s2|sz ty]; simpl;
    (eexists; split; [reflexivity|];
     destruct (Hgen (Data 1 sz)) as [Ha [Hreg Hout]];
     split; [exact Ha|]; split; [reflexivity|]; split; [reflexivity|];
     split; [exact Hreg|exact Hout]).
Qed.

(** X13.  Nodes of the four constructors that call [calloc]
    instead of [ast_calloc] (type declarations, switch collections, pull
    strengths, gate instantiations) are not part of the arena: creating
    one changes neither [head] nor [walker], no [ast_calloc] call ever
    returns its address while it is allocated, and [ast_free_all] leaves
    it allocated, however many [ast_calloc] calls come before and after
    its creation. *)
Theorem plain_calloc_nodes_outlive_release (reqs1 reqs2 : list (N * N))
    (ps1 : list pointer) (st1 st2 : state) (p : pointer) :
  session reqs1 init = Ok (ps1, st1) →
  plain_node st1 p st2 →
  head st2 = head st1 ∧ walker st2 = walker st1
  ∧ (p ∉ ps1)
  ∧ ∃ ps2 st3 st4,
      session reqs2 st2 = Ok (ps2, st3)
      ∧ (p ∉ ps2)
      ∧ ast_free_all (length reqs1 + length reqs2) st3 = Ok st4
      ∧ head st4 = NULL ∧ walker st4 = NULL
      ∧ live p st4.
Proof.
  intros Hs1 Hp.
  destruct (session_registered reqs1 init [] init_registered)
    as [l1 [st1' [Hs1' [Hlen1 Hreg1]]]].
  rewrite Hs1 in Hs1'. injection Hs1' as -> <-. simpl in Hreg1.
  destruct (plain_node_outside _ _ _ _ Hreg1 Hp)
    as [a [-> [Ha [Hhead [Hwalker [Hreg2 Hout2]]]]]].
  split; [done|]. split; [done|]. split.
  { intros Hin. apply list_elem_of_fmap in Hin as [d [[= <-] Hd]].
    destruct Hreg1 as [Hl _ _].
    destruct (alloc_seg_live _ _ _ _ _ Hl (elem_of_addrs_snd _ _ Hd))
      as [? Hlive].
    congruence. }
  destruct (session_outside reqs2 a _ _ Hreg2 Hout2)
    as [l2 [st3 [Hs2 [Hlen2 [Hreg3 Hout3]]]]].
  destruct (ast_free_all_outside st3 (l1 ++ l2) a
              (length reqs1 + length reqs2) Hreg3 Hout3)
    as [st4 [Hfree [Hh4 [Hw4 Hsame]]]].
  { rewrite length_app. lia. }
  exists (Some <$> l2.*2), st3, st4.
  split; [done|]. split.
  { intros Hin. apply list_elem_of_fmap in Hin as [d [[= <-] Hd]].
    destruct Hout3 as [Hnotin _]. apply Hnotin.
    rewrite addrs_app. apply elem_of_app. right.
    by apply elem_of_addrs_snd. }
  split; [done|]. split; [done|]. split; [done|].
  simpl. rewrite Hsame. by destruct Hout3.
Qed.

Lemma plain_calloc_nodes_outlive_release_witness :
  ∃ st1 p st2,
    session [(1%N, 8%N)] init = Ok ([Some 2%positive], st1)
    ∧ (p, st2) = ((TypeDeclaration.ast_new_type_declaration 40 0%Z st1).1.1,
                  (TypeDeclaration.ast_new_type_declaration 40 0%Z st1).2)
    ∧ head st2 = head st1 ∧ walker st2 = walker st1
    ∧ (p ∉ [Some 2%positive])
    ∧ ∃ ps2 st3 st4,
        session [(2%N, 4%N)] st2 = Ok (ps2, st3)
        ∧ (p ∉ ps2)
        ∧ ast_free_all (1 + 1) st3 = Ok st4
        ∧ head st4 = NULL ∧ walker st4 = NULL
        ∧ live p st4.
Proof.
  eexists _, _, _. split; [reflexivity|]. split; [reflexivity|].
  apply (plain_calloc_nodes_outlive_release [(1%N, 8%N)] [(2%N, 4%N)]).
  - reflexivity.
  - apply plain_type_declaration.
Defined.

End ArenaFrameFacts.

(** ** UDP declarations and the arena *)

Module UdpDeclarationFacts.
Import Arena ArenaFacts ArenaSessionFacts UdpBody UdpDeclaration.

Lemma elem_of_addrs_block l1 c b l2 : b ∈ addrs (l1 ++ (c, b) :: l2).
Proof.
  rewrite addrs_app. apply elem_of_app. right. simpl.
  apply list_elem_of_further, list_elem_of_here.
Qed.

(** The loop of [ast_free_all] over a list one of whose blocks, not the
    last, has already been handed to [free]: it reaches the cell of that
    block and frees the block again. *)
Lemma free_loop_frees_again l1 c b y l2 : ∀ h0 hd w fuel,
  alloc_seg h0 hd NULL (l1 ++ (c, b) :: y :: l2) →
  NoDup (addrs (l1 ++ (c, b) :: y :: l2)) →
  length l1 < fuel →
  free_loop fuel (mk_state (delete b h0) hd w) = Fault.
Proof.
  induction l1 as [|x l1 IH]; intros h0 hd w fuel Hseg Hnd Hfuel.
  - simpl in Hseg. destruct Hseg as [-> [nx [Hc [_ Hrest]]]].
    pose proof (alloc_seg_nonempty _ _ _ _ _ Hrest) as ->.
    simpl in Hnd. apply NoDup_cons in Hnd as [Hcb _].
    assert (Hne : b ≠ c).
    { intros ->. apply Hcb, list_elem_of_here. }
    destruct fuel as [|fuel]; [lia|].
    cbn [free_loop]. simpl.
    rewrite lookup_delete_ne by done. rewrite Hc. simpl.
    rewrite decide_False; [done|].
    rewrite lookup_delete_eq. by intros [? ?].
  - simpl in Hseg. destruct Hseg as [-> [nx [Hx [[n [s Hd]] Hrest]]]].
    assert (Hnx : ∃ z, nx = Some z).
    { destruct l1; simpl in Hrest; destruct Hrest as [-> _]; eauto. }
    destruct Hnx as [z ->].
    change (addrs ((x :: l1) ++ (c, b) :: y :: l2))
      with (x.1 :: x.2 :: addrs (l1 ++ (c, b) :: y :: l2)) in Hnd.
    apply NoDup_cons in Hnd as [Hx1 Hnd].
    apply NoDup_cons in Hnd as [Hx2 Hnd].
    pose proof (elem_of_addrs_block l1 c b (y :: l2)) as Hb.
    assert (Hx1b : b ≠ x.1).
    { intros Heq. apply Hx1. rewrite <- Heq. by apply list_elem_of_further. }
    assert (Hx2b : b ≠ x.2) by (intros Heq; apply Hx2; by rewrite <- Heq).
    assert (Hx12 : x.1 ≠ x.2).
    { intros Heq. apply Hx1. rewrite Heq. apply list_elem_of_here. }
    destruct fuel as [|fuel]; [simpl in Hfuel; lia|].
    cbn [free_loop]. simpl.
    rewrite lookup_delete_ne by done. rewrite Hx. simpl.
    rewrite decide_True
      by (rewrite lookup_delete_ne by done; rewrite Hd; eauto).
    simpl.
    rewrite decide_True
      by (rewrite !lookup_delete_ne by done; rewrite Hx; eauto).
    simpl.
    rewrite (delete_delete _ x.2 b), (delete_delete _ x.1 b).
    apply IH; [|done|simpl in Hfuel; lia].
    apply (alloc_seg_frame h0); [|done].
    intros a Ha. rewrite !lookup_delete_ne; [done|..].
    + intros <-. by apply Hx2.
    + intros <-. apply Hx1. by apply list_elem_of_further.
Qed.

(** The declaration constructor on a body that is the newest block of the
    arena. *)
Lemma udp_declaration_frees_body sz attrs id ports w l0 cb b bd :
  registered (arena w) (l0 ++ [(cb, b)]) →
  bodies w !! b = Some bd →
  ∃ tr w',
    ast_new_udp_declaration sz attrs id ports (Some b) w
    = Ok (tr,
          mk_udp_declaration attrs id ports (entries bd)
            (UdpBody.initial bd) (UdpBody.body_type bd),
          w')
    ∧ bodies w' !! b = None
    ∧ ¬ live (Some b) (arena w')
    ∧ ∀ fuel, length l0 < fuel → ast_free_all fuel (arena w') = Fault.
Proof.
  intros Hreg Hbd.
  destruct (ast_calloc_registered 1 sz _ _ Hreg)
    as [cd [d [st' [Hcall Hreg']]]].
  destruct Hreg' as [Hl Hnd _].
  rewrite <- app_assoc in Hl, Hnd. simpl in Hl, Hnd.
  assert (Hlive : is_Some (heap st' !! b)).
  { apply (alloc_seg_live _ _ _ _ _ Hl), elem_of_addrs_block. }
  unfold ast_new_udp_declaration. rewrite Hcall. simpl.
  rewrite Hbd. simpl. rewrite decide_True by done. simpl.
  eexists _, _. split; [reflexivity|]. simpl.
  split; [apply lookup_delete_eq|].
  split; [rewrite lookup_delete_eq; by intros [? ?]|].
  intros fuel Hfuel. unfold ast_free_all. simpl.
  assert (Hhd : ∃ z, head st' = Some z).
  { destruct l0; simpl in Hl; destruct Hl as [-> _]; eauto. }
  destruct Hhd as [z Hz]. rewrite Hz.
  rewrite <- Hz.
  by rewrite (free_loop_frees_again l0 cb b (cd, d) [] _ _ _ fuel Hl Hnd Hfuel).
Qed.

Lemma new_udp_body_registered (sequential : bool) sz init_stmt l_entries
    st bs l :
  registered st l →
  ∃ cb b st',
    (if sequential
     then ast_new_udp_sequential_body sz init_stmt l_entries
     else ast_new_udp_combinatoral_body sz l_entries) (mk_world st bs)
    = Ok (Some b,
          mk_world st'
            (<[b := mk_udp_body
                      (if sequential then UDP_BODY_SEQUENTIAL
                       else UDP_BODY_COMBINATORIAL)
                      (if sequential then init_stmt else NULL)
                      l_entries]> bs))
    ∧ registered st' (l ++ [(cb, b)]).
Proof.
  intros Hreg.
  destruct (ast_calloc_registered 1 sz _ _ Hreg)
    as [cb [b [st' [Hcall Hreg']]]].
  exists cb, b, st'. split; [|done].
  destruct sequential;
    unfold ast_new_udp_sequential_body, ast_new_udp_combinatoral_body;
    simpl; by rewrite Hcall.
Qed.

(** X14.  A UDP declaration takes the entries, the initial
    statement and the kind of its body (the initial statement is null for
    a combinatorial body) and hands the body to [free], although the body
    is a block of the arena.  The body is then no longer allocated while
    the allocation list still holds it, so the next [ast_free_all] frees
    it a second time: in the model the release faults, for every bound
    large enough to reach the body's cell.  With a null body the
    constructor itself faults. *)
Theorem udp_declaration_body_is_freed_twice (reqs : list (N * N))
    (ps : list pointer) (st0 : state) (bs : gmap addr ast_udp_body)
    (sequential : bool) (sz_body sz_decl : N)
    (init_stmt attrs id : pointer) (l_entries ports : list_pointer) :
  session reqs init = Ok (ps, st0) →
  ast_new_udp_declaration sz_decl attrs id ports NULL (mk_world st0 bs)
    = Fault
  ∧ ∃ body w1 tr w2,
      (if sequential
       then ast_new_udp_sequential_body sz_body init_stmt l_entries
       else ast_new_udp_combinatoral_body sz_body l_entries)
        (mk_world st0 bs)
      = Ok (body, w1)
      ∧ ast_new_udp_declaration sz_decl attrs id ports body w1
        = Ok (tr,
              mk_udp_declaration attrs id ports l_entries
                (if sequential then init_stmt else NULL)
                (if sequential then UDP_BODY_SEQUENTIAL
                 else UDP_BODY_COMBINATORIAL),
              w2)
      ∧ ¬ live body (arena w2)
      ∧ ∀ fuel, length reqs < fuel →
                ast_free_all fuel (arena w2) = Fault.
Proof.
  intros Hs.
  destruct (session_registered reqs init [] init_registered)
    as [l0 [st0' [Hs' [Hlen Hreg0]]]].
  rewrite Hs in Hs'. injection Hs' as -> <-. simpl in Hreg0.
  split.
  { destruct (ast_calloc_registered 1 sz_decl _ _ Hreg0)
      as [c [d [st' [Hcall _]]]].
    unfold ast_new_udp_declaration. simpl. by rewrite Hcall. }
  destruct (new_udp_body_registered sequential sz_body init_stmt l_entries
              st0 bs l0 Hreg0) as [cb [b [st1 [Hbody Hreg1]]]].
  set (bd := mk_udp_body
               (if sequential then UDP_BODY_SEQUENTIAL
                else UDP_BODY_COMBINATORIAL)
               (if sequential then init_stmt else NULL) l_entries) in *.
  destruct (udp_declaration_frees_body sz_decl attrs id ports
              (mk_world st1 (<[b := bd]> bs)) l0 cb b bd Hreg1
              (lookup_insert_eq _ _ _))
    as [tr [w2 [Hdecl [_ [Hdead Hfault]]]]].
  exists (Some b), (mk_world st1 (<[b := bd]> bs)), tr, w2.
  split; [exact Hbody|]. split; [exact Hdecl|].
  split; [exact Hdead|].
  intros fuel Hfuel. apply Hfault. by rewrite Hlen.
Qed.

Lemma udp_declaration_body_is_freed_twice_witness :
  ∃ st0 body w1 tr w2,
    session [(1%N, 8%N)] init = Ok ([Some 2%positive], st0)
    ∧ ast_new_udp_sequential_body 24 (Some 7%positive) None (mk_world st0 ∅)
      = Ok (body, w1)
    ∧ ast_new_udp_declaration 48 NULL NULL None body w1
      = Ok (tr,
            mk_udp_declaration NULL NULL None None (Some 7%positive)
              UDP_BODY_SEQUENTIAL,
            w2)
    ∧ ¬ live body (arena w2)
    ∧ ∀ fuel, 1 < fuel → ast_free_all fuel (arena w2) = Fault.
Proof.
  eexists.
  destruct (udp_declaration_body_is_freed_twice [(1%N, 8%N)]
              [Some 2%positive] _ ∅ true 24 48 (Some 7%positive) NULL NULL
              None None eq_refl)
    as [_ [body [w1 [tr [w2 [Hb [Hd [Hdead Hfault]]]]]]]].
  exists body, w1, tr, w2.
  split; [reflexivity|]. split; [exact Hb|]. split; [exact Hd|].
  split; [exact Hdead|exact Hfault].
Defined.

End UdpDeclarationFacts.

(** ** Assignments *)

Module AssignmentFacts.
Import Assignment.

(** X15.  Whichever of the five assignment constructors built an
    assignment, its type tag tells which structure it points to: a
    procedural assignment exactly for the blocking and nonblocking tags, a
    continuous one exactly for the continuous tag, a hybrid one exactly for
    the hybrid tag; and the blocking and nonblocking constructors differ
    in the tag only. *)
Theorem assignment_tag_decides_payload (a : ast_assignment) :
  constructed a →
  ((type a = ASSIGNMENT_BLOCKING ∨ type a = ASSIGNMENT_NONBLOCKING)
     ↔ ∃ p, payload a = procedural p)
  ∧ (type a = ASSIGNMENT_CONTINUOUS ↔ ∃ c, payload a = continuous c)
  ∧ (type a = ASSIGNMENT_HYBRID ↔ ∃ h, payload a = hybrid h)
  ∧ ∀ l e d, payload (ast_new_blocking_assignment l e d)
             = payload (ast_new_nonblocking_assignment l e d).
Proof.
  intros [t x|t l|l e d|l e d|l s d]; simpl;
    (split; [|split; [|split; [|done]]]);
    (split; [intros H|intros [? H]]);
    try discriminate; try (destruct H; discriminate); eauto.
Qed.

Lemma assignment_tag_decides_payload_witness :
  let a := ast_new_continuous_assignment None (Some 1%positive) NULL in
  ((type a = ASSIGNMENT_BLOCKING ∨ type a = ASSIGNMENT_NONBLOCKING)
     ↔ ∃ p, payload a = procedural p)
  ∧ (type a = ASSIGNMENT_CONTINUOUS ↔ ∃ c, payload a = continuous c)
  ∧ (type a = ASSIGNMENT_HYBRID ↔ ∃ h, payload a = hybrid h)
  ∧ ∀ l e d, payload (ast_new_blocking_assignment l e d)
             = payload (ast_new_nonblocking_assignment l e d).
Proof.
  intros a. apply (assignment_tag_decides_payload a). apply by_continuous.
Defined.

End AssignmentFacts.
